(** * Alfie integration sync: a shallow embedding and its properties

    The module under study (the "alfie-integrations" subsystem) fetches a
    snapshot of a tenant's Google accounts, compares every account with a
    watermark kept in [alfie/integrations.json], drives the [gog] tool to
    import the accounts that changed, and persists the new watermarks.

    Modelling conventions.
    - A string is the sequence of its code units; the model covers code units
      below 256, where [trim] and [toLowerCase] follow ECMAScript.
    - A JavaScript object is a finite map from property names to values
      ([gmap string json]); property order and the prototype chain are outside
      the model.
    - An [async] function is a state transformer over the [world] that returns
      either a value or a thrown error ([result]); effects performed before a
      throw stay in the world.
    - [log.warn] calls change neither state nor control flow and are left out.
    - [JSON.parse], [JSON.stringify], and the helpers imported from other
      modules ([isTruthyEnvValue], [hasBinary], [CONFIG_DIR]) are parameters
      of the development. *)

From Stdlib Require Import ZArith Ascii String.
From stdpp Require Import gmap strings list fin_maps pretty.

#[local] Set Warnings "-register-all".
#[local] Open Scope string_scope.
#[local] Open Scope list_scope.

(** ** Strings *)

Module Str.

(** WhiteSpace and LineTerminator code units below 256. *)
Definition isWhiteSpace (c : ascii) : bool :=
  let n := nat_of_ascii c in
  ((9 <=? n)%nat && (n <=? 13)%nat) || (n =? 32)%nat || (n =? 160)%nat.

Definition lowerChar (c : ascii) : ascii :=
  let n := nat_of_ascii c in
  if ((65 <=? n)%nat && (n <=? 90)%nat)
     || ((192 <=? n)%nat && (n <=? 222)%nat && negb (n =? 215)%nat)
  then ascii_of_nat (n + 32) else c.

Definition isEmpty (s : string) : bool :=
  match s with EmptyString => true | String _ _ => false end.

(** Truthiness of a string value: the empty string is falsy. *)
Definition truthy (s : string) : bool := negb (isEmpty s).

Fixpoint trimStart (s : string) : string :=
  match s with
  | EmptyString => EmptyString
  | String c rest => if isWhiteSpace c then trimStart rest else s
  end.

Fixpoint trimEnd (s : string) : string :=
  match s with
  | EmptyString => EmptyString
  | String c rest =>
      let rest' := trimEnd rest in
      if isWhiteSpace c && isEmpty rest' then EmptyString else String c rest'
  end.

(** [String.prototype.trim]. *)
Definition trim (s : string) : string := trimEnd (trimStart s).

(** [String.prototype.toLowerCase]. *)
Fixpoint toLowerCase (s : string) : string :=
  match s with
  | EmptyString => EmptyString
  | String c rest => String (lowerChar c) (toLowerCase rest)
  end.

(** [s.replace(/\/+$/, "")]: drop the slashes that end the string. *)
Fixpoint stripTrailingSlashes (s : string) : string :=
  match s with
  | EmptyString => EmptyString
  | String c rest =>
      let rest' := stripTrailingSlashes rest in
      if Ascii.eqb c "/"%char && isEmpty rest' then EmptyString else String c rest'
  end.

Fixpoint allWhiteSpace (s : string) : bool :=
  match s with
  | EmptyString => true
  | String c rest => isWhiteSpace c && allWhiteSpace rest
  end.

Definition newline : string := String (ascii_of_nat 10) EmptyString.

(** [a || b] on strings. *)
Definition orElse (a b : string) : string := if truthy a then a else b.

End Str.

(** ** Values *)

(** A JavaScript number: an integer literal of the source, or the value
    [Number(text)] of a string.  The code passes numbers on and never computes
    with one of the second kind. *)
Inductive number : Type :=
  | Num (z : Z)
  | NumberOf (text : string).

(** A value produced by [JSON.parse]. *)
Inductive json : Type :=
  | JNull
  | JBool (b : bool)
  | JNum (n : number)
  | JStr (s : string)
  | JArr (items : list json)
  | JObj (fields : gmap string json).

(** The outcome of an [await]: a value, or a thrown error (a rejection). *)
Inductive result (A : Type) : Type :=
  | Ok (a : A)
  | Threw (err : string).
Arguments Ok {A} a.
Arguments Threw {A} err.

(** ** The snapshot and its schema *)

Record GoogleAccount := {
  acctId : string;
  email : string;
  refreshToken : string;
  scopes : option (list string);
  updatedAtIso : string;
}.

Record GoogleIntegration := {
  configured : bool;
  clientId : option string;
  clientSecret : option string;
  accounts : list GoogleAccount;
}.

Record Integrations := { google : GoogleIntegration }.

(** [z.infer<typeof AlfieIntegrationSnapshotSchema>]; the field [ok] has the
    one-value type [true] and is not kept. *)
Record AlfieIntegrationSnapshot := {
  tenantId : string;
  tenantStatus : string;
  version : string;
  integrations : Integrations;
}.

Module Zod.

(** A schema applied to the value of a property; [None] as input is
    [undefined] (the property is missing), [None] as output is a failed
    validation. *)
Definition schema (A : Type) : Type := option json → option A.

Definition literalTrue : schema unit := λ v,
  match v with Some (JBool true) => Some tt | _ => None end.

Definition boolean : schema bool := λ v,
  match v with Some (JBool b) => Some b | _ => None end.

Definition str : schema string := λ v,
  match v with Some (JStr s) => Some s | _ => None end.

(** [z.string().min(1)] *)
Definition stringMin1 : schema string := λ v,
  match v with
  | Some (JStr s) => if Str.isEmpty s then None else Some s
  | _ => None
  end.

Definition nullable {A} (p : schema A) : schema (option A) := λ v,
  match v with
  | Some JNull => Some None
  | _ => Some <$> p v
  end.

Definition array {A} (p : schema A) : schema (list A) := λ v,
  match v with
  | Some (JArr items) => mapM (λ item, p (Some item)) items
  | _ => None
  end.

(** [z.object({...})]: the value must be an object; unknown keys are
    stripped, so only the listed properties are read. *)
Definition object {A} (shape : gmap string json → option A) : schema A := λ v,
  match v with
  | Some (JObj fields) => shape fields
  | _ => None
  end.

End Zod.

Definition GoogleAccountSchema : Zod.schema GoogleAccount :=
  Zod.object (λ o,
    i ← Zod.stringMin1 (o !! "id");
    e ← Zod.stringMin1 (o !! "email");
    r ← Zod.stringMin1 (o !! "refreshToken");
    s ← Zod.nullable (Zod.array Zod.str) (o !! "scopes");
    u ← Zod.stringMin1 (o !! "updatedAtIso");
    Some {| acctId := i; email := e; refreshToken := r; scopes := s; updatedAtIso := u |}).

Definition GoogleIntegrationSchema : Zod.schema GoogleIntegration :=
  Zod.object (λ o,
    c ← Zod.boolean (o !! "configured");
    ci ← Zod.nullable Zod.str (o !! "clientId");
    cs ← Zod.nullable Zod.str (o !! "clientSecret");
    a ← Zod.array GoogleAccountSchema (o !! "accounts");
    Some {| configured := c; clientId := ci; clientSecret := cs; accounts := a |}).

Definition AlfieIntegrationSnapshotSchema : Zod.schema AlfieIntegrationSnapshot :=
  Zod.object (λ o,
    _ ← Zod.literalTrue (o !! "ok");
    t ← Zod.stringMin1 (o !! "tenantId");
    ts ← Zod.stringMin1 (o !! "tenantStatus");
    v ← Zod.stringMin1 (o !! "version");
    i ← Zod.object (λ io,
          g ← GoogleIntegrationSchema (io !! "google");
          Some {| google := g |}) (o !! "integrations");
    Some {| tenantId := t; tenantStatus := ts; version := v; integrations := i |}).

(** [schema.safeParse(json)] *)
Definition safeParse {A} (p : Zod.schema A) (j : json) : option A := p (Some j).


(** ** The world the module runs in *)

(** What [fs.readFile] finds at a path. *)
Inductive file : Type :=
  | Absent
  | Unreadable
  | Text (raw : string).

(** A [Response]; [body] is the outcome of [res.text()]. *)
Record Response := { status : Z; body : result string }.

(** [res.ok]: the status is in the range 200-299. *)
Definition res_ok (res : Response) : bool :=
  (200 <=? status res)%Z && (status res <=? 299)%Z.

(** The outcome of [await fetch(...)]: a rejection (network failure, or the
    abort raised by [AbortSignal.timeout]) or a response. *)
Inductive FetchOutcome : Type :=
  | FetchRejected (err : string)
  | FetchResolved (res : Response).

(** One call of [runCommandWithTimeout] and what it resolves to. *)
Record Command := {
  argv : list string;
  cmdTimeoutMs : number;
  input : string;
  cmdEnv : gmap string string;
}.

Record CommandResult := { code : option Z; stdout : string; stderr : string }.

Record world := {
  (** [process.env] *)
  processEnv : gmap string string;
  (** the remote end: url, authorization header and timeout to outcome *)
  network : string → string → number → FetchOutcome;
  (** the file at [stateFilePath()], and whether it can be replaced *)
  stateFile : file;
  stateFileWritable : bool;
  (** the [gogcli/credentials.json] under each configuration root *)
  credentialsFiles : gmap string string;
  credentialsWritable : bool;
  (** the external tool behind [runCommandWithTimeout] (imported from
      [../process/exec.js] and taken to resolve always, with the code [null]
      when the process is killed): the commands run so far, the last one
      being the current one, to the result of the current one *)
  processes : list Command → CommandResult;
  (** trace: the commands run so far *)
  commandsRun : list Command;
  (** trace: the values handed to [writeState] that reached the disk *)
  stateWrites : list (gmap string json);
  (** what [new Date().toISOString()] returns *)
  clockIso : string;
}.

(** An [async] computation. *)
Definition M (A : Type) : Type := world → result A * world.

#[global] Instance M_ret : MRet M := λ A a w, (Ok a, w).
#[global] Instance M_bind : MBind M := λ A B f m w,
  match m w with
  | (Ok a, w') => f a w'
  | (Threw err, w') => (Threw err, w')
  end.

Definition throw {A} (err : string) : M A := λ w, (Threw err, w).

(** [try { body } catch { handler }] *)
Definition tryCatch {A} (body : M A) (handler : string → M A) : M A := λ w,
  match body w with
  | (Ok a, w') => (Ok a, w')
  | (Threw err, w') => handler err w'
  end.

Definition liftResult {A} (r : result A) : M A := λ w, (r, w).

Definition runCommandWithTimeout (cmd : Command) : M CommandResult := λ w,
  let history := commandsRun w ++ [cmd] in
  (Ok (processes w history),
   {| processEnv := processEnv w; network := network w;
      stateFile := stateFile w; stateFileWritable := stateFileWritable w;
      credentialsFiles := credentialsFiles w;
      credentialsWritable := credentialsWritable w;
      processes := processes w; commandsRun := history;
      stateWrites := stateWrites w; clockIso := clockIso w |}).

(** ** State values *)

(** [{ ...(v ?? {}) }] for a property value [v]: the own enumerable
    properties of [v], which are the fields of an object, the indexed elements
    of an array or of a string, and nothing for the other values. *)
Definition indexed {A} (f : A → json) (l : list A) : gmap string json :=
  list_to_map (imap (λ i x, (pretty i, f x)) l).

Definition spread (v : option json) : gmap string json :=
  match v with
  | Some (JObj fields) => fields
  | Some (JArr items) => indexed (λ x, x) items
  | Some (JStr s) => indexed (λ c, JStr (String c EmptyString)) (list_ascii_of_string s)
  | _ => ∅
  end.

(** [entry?.updatedAtIso ?? ""] for [entry = googleState[email]]. *)
Definition prevOf (entry : option json) : json :=
  match entry with
  | Some (JObj fields) =>
      match fields !! "updatedAtIso" with
      | None | Some JNull => JStr ""
      | Some v => v
      end
  | _ => JStr ""
  end.

(** [prev && prev === updatedAtIso]: only a non-empty string can be strictly
    equal to the string [updatedAtIso] and truthy. *)
Definition upToDate (prev : json) (updatedAtIso : string) : bool :=
  match prev with
  | JStr s => Str.truthy s && String.eqb s updatedAtIso
  | _ => false
  end.

(** [{ updatedAtIso: acct.updatedAtIso }] *)
Definition watermark (updatedAtIso : string) : json :=
  JObj {[ "updatedAtIso" := JStr updatedAtIso ]}.

(** [state.version !== snapshot.version] *)
Definition versionDiffers (state : gmap string json) (v : string) : bool :=
  match state !! "version" with
  | Some (JStr s) => negb (String.eqb s v)
  | _ => true
  end.

Inductive ImportResult : Type :=
  | ImportOk
  | ImportFailed (error : string).

Record SyncParams := {
  apiUrl : option string;
  gatewayToken : option string;
  timeoutMs : option number;
}.

(** ** The module *)

Section AlfieIntegrations.

(** [JSON.parse]; [None] stands for the [SyntaxError] it throws. *)
Variable JSON_parse : string → option json.
(** [JSON.stringify(value, null, 2)] *)
Variable JSON_stringify : json → string.
(** Imported from [../infra/env.js]; applied to a variable that may be unset. *)
Variable isTruthyEnvValue : option string → bool.
(** Imported from [../agents/skills.js]. *)
Variable hasBinary : string → bool.
(** Imported from [../utils.js]. *)
Variable CONFIG_DIR : string.

Definition parseJson (text : string) : M json :=
  match JSON_parse text with
  | Some j => mret j
  | None => throw "SyntaxError"
  end.

Definition normalizeBaseUrl (raw : string) : string :=
  Str.stripTrailingSlashes (Str.trim raw).

Definition readFile : M string := λ w,
  match stateFile w with
  | Text raw => (Ok raw, w)
  | Absent => (Threw "ENOENT", w)
  | Unreadable => (Threw "EACCES", w)
  end.

(** The object returned when [parsed] passes the test
    [!parsed || typeof parsed !== "object" || Array.isArray(parsed)]:
    [null] is falsy, booleans, numbers and strings are not of type "object",
    arrays are arrays; only an object is returned as it is. *)
Definition readState : M (gmap string json) :=
  tryCatch
    (raw ← readFile;
     parsed ← parseJson raw;
     match parsed with
     | JObj fields => mret fields
     | _ => mret ∅
     end)
    (λ _, mret ∅).

(** The temporary file, the two [chmod]s and the [rename] are one step here:
    the write either replaces the file or throws and leaves it. *)
Definition writeState (next : gmap string json) : M unit := λ w,
  if stateFileWritable w then
    (Ok tt,
     {| processEnv := processEnv w; network := network w;
        stateFile := Text (JSON_stringify (JObj next) +:+ Str.newline);
        stateFileWritable := stateFileWritable w;
        credentialsFiles := credentialsFiles w;
        credentialsWritable := credentialsWritable w;
        processes := processes w; commandsRun := commandsRun w;
        stateWrites := stateWrites w ++ [next]; clockIso := clockIso w |})
  else (Threw "EACCES", w).

Definition resolveXdgConfigHome (env : gmap string string) : string :=
  let raw := Str.trim (default "" (env !! "XDG_CONFIG_HOME")) in
  Str.orElse raw CONFIG_DIR.

Definition ensureGogClientCredentials
    (xdgConfigHome clientId clientSecret : string) : M unit := λ w,
  let payload :=
    JObj {[ "client_id" := JStr clientId; "client_secret" := JStr clientSecret ]} in
  if credentialsWritable w then
    (Ok tt,
     {| processEnv := processEnv w; network := network w;
        stateFile := stateFile w; stateFileWritable := stateFileWritable w;
        credentialsFiles :=
          <[ xdgConfigHome := JSON_stringify payload +:+ Str.newline ]> (credentialsFiles w);
        credentialsWritable := credentialsWritable w;
        processes := processes w; commandsRun := commandsRun w;
        stateWrites := stateWrites w; clockIso := clockIso w |})
  else (Threw "EACCES", w).

(** [String(result.code)] *)
Definition codeToString (c : option Z) : string :=
  match c with Some z => pretty z | None => "null" end.

Definition importCommand
    (xdgConfigHome keyringPassword email refreshToken : string)
    (scopes : option (list string)) (timeout : number) : Command :=
  let env : gmap string string :=
    {[ "XDG_CONFIG_HOME" := xdgConfigHome;
       "GOG_KEYRING_BACKEND" := "file";
       "GOG_KEYRING_PASSWORD" := keyringPassword ]} in
  let base : gmap string json :=
    {[ "email" := JStr email; "refresh_token" := JStr refreshToken ]} in
  let payload :=
    match scopes with
    | Some l => <[ "scopes" := JArr (JStr <$> l) ]> base
    | None => base
    end in
  {| argv := ["gog"; "--no-input"; "--plain"; "auth"; "tokens"; "import"; "-"];
     cmdTimeoutMs := timeout;
     input := JSON_stringify (JObj payload) +:+ Str.newline;
     cmdEnv := env |}.

Definition importGogRefreshToken
    (xdgConfigHome keyringPassword email refreshToken : string)
    (scopes : option (list string)) (timeout : number) : M ImportResult :=
  result ← runCommandWithTimeout
    (importCommand xdgConfigHome keyringPassword email refreshToken scopes timeout);
  if decide (code result = Some 0%Z) then mret ImportOk
  else
    let stderr := Str.trim (stderr result) in
    let stdout := Str.trim (stdout result) in
    mret (ImportFailed
      (Str.orElse stderr
        (Str.orElse stdout ("gog exited with code " +:+ codeToString (code result))))).

Definition fetchIntegrationSnapshot
    (apiUrl gatewayToken : string) (timeout : number)
    : M (option AlfieIntegrationSnapshot) :=
  let base := normalizeBaseUrl apiUrl in
  let url := base +:+ "/internal/v1/tenant-integrations/snapshot" in
  res ← (λ w,
    match network w url ("Bearer " +:+ gatewayToken) timeout with
    | FetchRejected err => (Threw err, w)
    | FetchResolved res => (Ok res, w)
    end);
  text ← liftResult (body res);
  if negb (res_ok res) then mret None
  else
    tryCatch
      (json ← parseJson text;
       match safeParse AlfieIntegrationSnapshotSchema json with
       | None => mret None
       | Some data => mret (Some data)
       end)
      (λ _, mret None).

(** [acct => ({ ...acct, email: acct.email.trim().toLowerCase() })] *)
Definition normalizeEmail (raw : string) : string :=
  Str.toLowerCase (Str.trim raw).

Definition normalizeAccount (acct : GoogleAccount) : GoogleAccount :=
  {| acctId := acctId acct; email := normalizeEmail (email acct);
     refreshToken := refreshToken acct; scopes := scopes acct;
     updatedAtIso := updatedAtIso acct |}.

Definition normalizedAccounts (g : GoogleIntegration) : list GoogleAccount :=
  filter (λ acct, Str.truthy (email acct) = true) (normalizeAccount <$> accounts g).

(** One turn of the [for (const acct of accounts)] loop over the working copy
    [googleState] and the flag [changed]. *)
Definition importStep (xdgConfigHome keyringPassword : string)
    (acc : gmap string json * bool) (acct : GoogleAccount)
    : M (gmap string json * bool) :=
  let '(googleState, changed) := acc in
  let prev := prevOf (googleState !! email acct) in
  if upToDate prev (updatedAtIso acct) then mret (googleState, changed)
  else
    result ← importGogRefreshToken xdgConfigHome keyringPassword
      (email acct) (refreshToken acct) (scopes acct) (Num 30000);
    match result with
    | ImportFailed _ => mret (googleState, changed)
    | ImportOk => mret (<[ email acct := watermark (updatedAtIso acct) ]> googleState, true)
    end.

Fixpoint importLoop (xdgConfigHome keyringPassword : string)
    (accts : list GoogleAccount) (acc : gmap string json * bool)
    : M (gmap string json * bool) :=
  match accts with
  | [] => mret acc
  | acct :: rest =>
      acc' ← importStep xdgConfigHome keyringPassword acc acct;
      importLoop xdgConfigHome keyringPassword rest acc'
  end.

(** [{ ...state, version, google: googleState, syncedAtIso }] *)
Definition nextState (state : gmap string json) (snapshotVersion : string)
    (googleState : gmap string json) (now : string) : gmap string json :=
  <[ "syncedAtIso" := JStr now ]>
    (<[ "google" := JObj googleState ]>
      (<[ "version" := JStr snapshotVersion ]> state)).

(** The cycle from [readState()] on: the import loop and the conditional
    write. *)
Definition reconcile (snapshot : AlfieIntegrationSnapshot)
    (accts : list GoogleAccount) (xdgConfigHome keyringPassword : string)
    : M unit :=
  state ← readState;
  let googleState := spread (state !! "google") in
  '(googleState, changed) ←
    importLoop xdgConfigHome keyringPassword accts (googleState, false);
  if changed || versionDiffers state (version snapshot) then
    now ← (λ w, (Ok (clockIso w), w));
    writeState (nextState state (version snapshot) googleState now)
  else mret tt.

Definition syncAlfieIntegrationsOnce (params : option SyncParams) : M unit :=
  env ← (λ w, (Ok (processEnv w), w));
  if negb (isTruthyEnvValue (env !! "ALFIE_MODE")) then mret tt else
  let apiUrl :=
    Str.trim (default (default "" (env !! "ALFIE_API_URL")) (params ≫= apiUrl)) in
  if negb (Str.truthy apiUrl) then mret tt else
  let gatewayToken :=
    Str.trim (default (default "" (env !! "OPENCLAW_GATEWAY_TOKEN"))
                      (params ≫= gatewayToken)) in
  if negb (Str.truthy gatewayToken) then mret tt else
  if negb (hasBinary "gog") then mret tt else
  let timeout :=
    default (NumberOf (default "10000" (env !! "ALFIE_INTEGRATION_SNAPSHOT_TIMEOUT_MS")))
            (params ≫= timeoutMs) in
  snapshot ← fetchIntegrationSnapshot apiUrl gatewayToken timeout;
  match snapshot with
  | None => mret tt
  | Some snapshot =>
      let google := google (integrations snapshot) in
      match configured google, clientId google, clientSecret google with
      | true, Some clientId, Some clientSecret =>
          if negb (Str.truthy clientId) || negb (Str.truthy clientSecret)
          then mret tt else
          let accts := normalizedAccounts google in
          if decide (accts = []) then mret tt else
          let xdgConfigHome := resolveXdgConfigHome env in
          let keyringPassword :=
            Str.orElse (Str.trim (default "" (env !! "GOG_KEYRING_PASSWORD")))
                       gatewayToken in
          ensureGogClientCredentials xdgConfigHome clientId clientSecret;;
          reconcile snapshot accts xdgConfigHome keyringPassword
      | _, _, _ => mret tt
      end
  end.

End AlfieIntegrations.

(** ** The scheduler *)

Module Scheduler.

(** What the event loop delivers to [startAlfieIntegrationSyncIfEnabled]:
    a started cycle settles (its promise resolves or rejects), or the
    interval timer fires.  How long a cycle lasts against the period of the
    timer is the order in which these events arrive. *)
Inductive event : Type :=
  | Settle (cycle : nat)
  | Tick.

Record sched := {
  (** calls of [syncAlfieIntegrationsOnce] made so far; cycles are numbered
      from 0 in the order they start *)
  started : nat;
  (** the cycles that have started and not settled *)
  inFlight : list nat;
  (** [setInterval] has been called *)
  timerSet : bool;
}.

(** [startAlfieIntegrationSyncIfEnabled] up to its [await]: nothing happens
    when ALFIE_MODE is not truthy, otherwise cycle 0 starts. *)
Definition start (alfieMode : bool) : sched :=
  if negb alfieMode
  then {| started := 0; inFlight := []; timerSet := false |}
  else {| started := 1; inFlight := [0]; timerSet := false |}.

(** One event.  When cycle 0 settles the [await] resumes, through the [try]
    or through its [catch], and [setInterval] is called.  The timer callback
    calls [syncAlfieIntegrationsOnce()] and does nothing else.  An event that
    cannot happen in the state gives [None]. *)
Definition step (s : sched) (ev : event) : option sched :=
  match ev with
  | Settle c =>
      if bool_decide (c ∈ inFlight s) then
        Some {| started := started s;
                inFlight := filter (λ c', c' ≠ c) (inFlight s);
                timerSet := timerSet s || bool_decide (c = 0) |}
      else None
  | Tick =>
      if timerSet s then
        Some {| started := S (started s);
                inFlight := inFlight s ++ [started s];
                timerSet := true |}
      else None
  end.

Fixpoint run (s : sched) (evs : list event) : option sched :=
  match evs with
  | [] => Some s
  | ev :: rest => s' ← step s ev; run s' rest
  end.

(** What holds in every state the scheduler can reach. *)
Definition reachable_inv (s : sched) : Prop :=
  (∀ c, c ∈ inFlight s → c < started s) ∧
  (timerSet s = false → ∀ c, c ∈ inFlight s → c = 0) ∧
  (timerSet s = true → (0 ∉ inFlight s) ∧ (0 < started s)).

End Scheduler.

(** ** Notions used by the statements *)

(** The value [readState] resolves to, as a function of the file. *)
Definition stateOnDisk (JSON_parse : string → option json) (f : file)
    : gmap string json :=
  match f with
  | Text raw => match JSON_parse raw with Some (JObj fields) => fields | _ => ∅ end
  | _ => ∅
  end.

(** The watermark a map of type [Record<string, { updatedAtIso: string }>]
    holds for an email. *)
Definition storedWatermark (googleState : gmap string json) (e : string)
    : option string :=
  match googleState !! e with
  | Some (JObj fields) =>
      match fields !! "updatedAtIso" with Some (JStr s) => Some s | _ => None end
  | _ => None
  end.

(** A property of a JSON value that is an object. *)
Definition prop (j : json) (k : string) : option json :=
  match j with JObj fields => fields !! k | _ => None end.


(** The address the fetcher requests. *)
Definition snapshotUrl (apiUrl : string) : string :=
  normalizeBaseUrl apiUrl +:+ "/internal/v1/tenant-integrations/snapshot".

(** The value a computation resolves to, and [d] if it throws. *)
Definition valueOf {A} (d : A) (r : result A * world) : A :=
  match fst r with Ok a => a | Threw _ => d end.

(** The command the loop runs for an account, the world once it has run, and
    whether the tool exits with 0 for it. *)
Definition commandFor (JSON_stringify : json → string)
    (xdgConfigHome keyringPassword : string) (acct : GoogleAccount) : Command :=
  importCommand JSON_stringify xdgConfigHome keyringPassword
    (email acct) (refreshToken acct) (scopes acct) (Num 30000).

Definition ran (cmd : Command) (w : world) : world :=
  {| processEnv := processEnv w; network := network w;
     stateFile := stateFile w; stateFileWritable := stateFileWritable w;
     credentialsFiles := credentialsFiles w;
     credentialsWritable := credentialsWritable w;
     processes := processes w; commandsRun := commandsRun w ++ [cmd];
     stateWrites := stateWrites w; clockIso := clockIso w |}.

Definition succeeds (cmd : Command) (w : world) : bool :=
  bool_decide (code (processes w (commandsRun w ++ [cmd])) = Some 0%Z).

(** The loop, turn by turn, as a function: what [importStep] and [importLoop]
    resolve to (lemmas [importStep_eq] and [importLoop_eq]). *)
Definition turn (JSON_stringify : json → string)
    (xdgConfigHome keyringPassword : string)
    (acc : gmap string json * bool) (acct : GoogleAccount) (w : world)
    : (gmap string json * bool) * world :=
  let cmd := commandFor JSON_stringify xdgConfigHome keyringPassword acct in
  if upToDate (prevOf (acc.1 !! email acct)) (updatedAtIso acct) then (acc, w)
  else if succeeds cmd w
       then ((<[ email acct := watermark (updatedAtIso acct) ]> acc.1, true), ran cmd w)
       else (acc, ran cmd w).

Fixpoint turns (JSON_stringify : json → string)
    (xdgConfigHome keyringPassword : string)
    (accts : list GoogleAccount) (acc : gmap string json * bool) (w : world)
    : (gmap string json * bool) * world :=
  match accts with
  | [] => (acc, w)
  | acct :: rest =>
      let r := turn JSON_stringify xdgConfigHome keyringPassword acc acct w in
      turns JSON_stringify xdgConfigHome keyringPassword rest r.1 r.2
  end.

(** Two worlds that differ at most in the commands run, the second having
    run the commands of the first and possibly more. *)
Definition extends (w w' : world) : Prop :=
  processEnv w' = processEnv w ∧ network w' = network w ∧
  stateFile w' = stateFile w ∧ stateFileWritable w' = stateFileWritable w ∧
  credentialsFiles w' = credentialsFiles w ∧
  credentialsWritable w' = credentialsWritable w ∧
  processes w' = processes w ∧ stateWrites w' = stateWrites w ∧
  clockIso w' = clockIso w ∧
  commandsRun w `prefix_of` commandsRun w'.

(** The working copy and the flag the loop ends with, and the world it
    leaves, for a cycle that starts from the watermarks [g0]. *)
Definition loopResult (JSON_stringify : json → string)
    (xdgConfigHome keyringPassword : string)
    (accts : list GoogleAccount) (g0 : gmap string json) (w : world)
    : gmap string json * bool :=
  valueOf (g0, false)
    (importLoop JSON_stringify xdgConfigHome keyringPassword accts (g0, false) w).

Definition loopWorld (JSON_stringify : json → string)
    (xdgConfigHome keyringPassword : string)
    (accts : list GoogleAccount) (g0 : gmap string json) (w : world) : world :=
  snd (importLoop JSON_stringify xdgConfigHome keyringPassword accts (g0, false) w).



(** The world once [writeState next] has replaced the file. *)
Definition wrote (JSON_stringify : json → string) (next : gmap string json)
    (w : world) : world :=
  {| processEnv := processEnv w; network := network w;
     stateFile := Text (JSON_stringify (JObj next) +:+ Str.newline);
     stateFileWritable := stateFileWritable w;
     credentialsFiles := credentialsFiles w;
     credentialsWritable := credentialsWritable w;
     processes := processes w; commandsRun := commandsRun w;
     stateWrites := stateWrites w ++ [next]; clockIso := clockIso w |}.

(** ** A concrete deployment, used to run the definitions *)

Module Example.

Definition accountJson (e t : string) : json :=
  JObj {[ "id" := JStr "acct-1"; "email" := JStr e; "refreshToken" := JStr "rt";
          "scopes" := JNull; "updatedAtIso" := JStr t ]}.

Definition googleJson (accts : list json) : json :=
  JObj {[ "configured" := JBool true; "clientId" := JStr "cid";
          "clientSecret" := JStr "secret"; "accounts" := JArr accts ]}.

Definition tenantFields (v : string) : gmap string json :=
  {[ "tenantId" := JStr "t1"; "tenantStatus" := JStr "active"; "version" := JStr v ]}.

(** A body the schema accepts. *)
Definition snapshotJson (v : string) (accts : list json) : json :=
  JObj (<[ "ok" := JBool true ]>
         (<[ "integrations" := JObj {[ "google" := googleJson accts ]} ]>
           (tenantFields v))).

(** The same body without [ok]. *)
Definition noOkJson (v : string) (accts : list json) : json :=
  JObj (<[ "integrations" := JObj {[ "google" := googleJson accts ]} ]>
         (tenantFields v)).

(** The same body with the google object at the top level. *)
Definition flatJson (v : string) (accts : list json) : json :=
  JObj (<[ "ok" := JBool true ]>
         (<[ "google" := googleJson accts ]> (tenantFields v))).

(** The state a cycle leaves for version [v] and one watermark. *)
Definition stateFields (v : string) (g : gmap string json) : gmap string json :=
  {[ "version" := JStr v; "google" := JObj g; "syncedAtIso" := JStr "2026-01-01T00:00:00.000Z" ]}.

Definition imported : gmap string json := {[ "user@example.com" := watermark "T1" ]}.

Definition stateText : string := "state" +:+ Str.newline.

(** A table in place of [JSON.parse]: the bodies the remote end serves, and
    the state file when it holds the watermarks [onDisk]. *)
Definition parse (onDisk : gmap string json) (text : string) : option json :=
  if String.eqb text "snapshot-padded" then
    Some (snapshotJson "v1" [accountJson "  User@Example.com " "T1"])
  else if String.eqb text "snapshot-plain" then
    Some (snapshotJson "v1" [accountJson "user@example.com" "T1"])
  else if String.eqb text "snapshot-no-ok" then
    Some (noOkJson "v1" [accountJson "user@example.com" "T1"])
  else if String.eqb text "snapshot-flat" then
    Some (flatJson "v1" [accountJson "user@example.com" "T1"])
  else if String.eqb text "[]" then Some (JArr [])
  else if String.eqb text stateText then Some (JObj (stateFields "v1" onDisk))
  else None.

Definition stringify (_ : json) : string := "state".

Definition isTruthyEnvValue (v : option string) : bool :=
  bool_decide (v = Some "1").

Definition hasBinary (name : string) : bool := String.eqb name "gog".

Definition account (e t : string) : GoogleAccount :=
  {| acctId := "acct-1"; email := e; refreshToken := "rt"; scopes := None;
     updatedAtIso := t |}.

Definition snapshot (accts : list GoogleAccount) : AlfieIntegrationSnapshot :=
  {| tenantId := "t1"; tenantStatus := "active"; version := "v1";
     integrations := {| google := {| configured := true; clientId := Some "cid";
                                     clientSecret := Some "secret";
                                     accounts := accts |} |} |}.

(** A deployment with the feature on, no state file yet, a remote end that
    answers [outcome] and a tool that exits with [exit]. *)
Definition deployment (outcome : FetchOutcome) (exit : Z) : world :=
  {| processEnv := {[ "ALFIE_MODE" := "1"; "ALFIE_API_URL" := "https://api.example/";
                      "OPENCLAW_GATEWAY_TOKEN" := "token" ]};
     network := λ _ _ _, outcome;
     stateFile := Absent; stateFileWritable := true;
     credentialsFiles := ∅; credentialsWritable := true;
     processes := λ _, {| code := Some exit; stdout := ""; stderr := "boom" |};
     commandsRun := []; stateWrites := [];
     clockIso := "2026-01-01T00:00:00.000Z" |}.

Definition serving (bodyText : string) : FetchOutcome :=
  FetchResolved {| status := 200; body := Ok bodyText |}.

Definition withStateFile (f : file) (w : world) : world :=
  {| processEnv := processEnv w; network := network w;
     stateFile := f; stateFileWritable := stateFileWritable w;
     credentialsFiles := credentialsFiles w;
     credentialsWritable := credentialsWritable w;
     processes := processes w; commandsRun := commandsRun w;
     stateWrites := stateWrites w; clockIso := clockIso w |}.

Definition withNetwork (outcome : FetchOutcome) (w : world) : world :=
  {| processEnv := processEnv w; network := λ _ _ _, outcome;
     stateFile := stateFile w; stateFileWritable := stateFileWritable w;
     credentialsFiles := credentialsFiles w;
     credentialsWritable := credentialsWritable w;
     processes := processes w; commandsRun := commandsRun w;
     stateWrites := stateWrites w; clockIso := clockIso w |}.


Definition xdg : string := "/home/node/.openclaw".
Definition keyring : string := "token".

Definition plain : AlfieIntegrationSnapshot :=
  snapshot [account "user@example.com" "T1"].

(** The cycle from [readState] on, for a snapshot. *)
Definition reconcileOf (onDisk : gmap string json)
    (s : AlfieIntegrationSnapshot) : M unit :=
  reconcile (parse onDisk) stringify s
    (normalizedAccounts (google (integrations s))) xdg keyring.

Definition fresh (exit : Z) : world := deployment (serving "snapshot-plain") exit.

(** A deployment whose state file holds a watermark for another email. *)
Definition old : gmap string json := {[ "old@example.com" := watermark "T0" ]}.
Definition seeded : world := withStateFile (Text stateText) (fresh 0).

(** One full cycle in this deployment. *)
Definition cycle (onDisk : gmap string json) : M unit :=
  syncAlfieIntegrationsOnce (parse onDisk) stringify isTruthyEnvValue hasBinary
    "/home/node/.openclaw" None.

End Example.

(** ** The inputs of a full cycle *)

(** The values [syncAlfieIntegrationsOnce] binds before it fetches: each
    comes from [params] when given there, from the environment otherwise. *)
Definition resolvedApiUrl (params : option SyncParams) (w : world) : string :=
  Str.trim (default (default "" (processEnv w !! "ALFIE_API_URL")) (params ≫= apiUrl)).

Definition resolvedToken (params : option SyncParams) (w : world) : string :=
  Str.trim (default (default "" (processEnv w !! "OPENCLAW_GATEWAY_TOKEN"))
                    (params ≫= gatewayToken)).

Definition resolvedTimeout (params : option SyncParams) (w : world) : number :=
  default (NumberOf (default "10000"
             (processEnv w !! "ALFIE_INTEGRATION_SNAPSHOT_TIMEOUT_MS")))
          (params ≫= timeoutMs).

Definition resolvedKeyring (params : option SyncParams) (w : world) : string :=
  Str.orElse (Str.trim (default "" (processEnv w !! "GOG_KEYRING_PASSWORD")))
             (resolvedToken params w).

(** The client id and secret of a google integration that passes the test
    [!google.configured || !google.clientId || !google.clientSecret]. *)
Definition clientCredentials (g : GoogleIntegration) : option (string * string) :=
  match configured g, clientId g, clientSecret g with
  | true, Some cid, Some secret =>
      if Str.truthy cid && Str.truthy secret then Some (cid, secret) else None
  | _, _, _ => None
  end.

(** The world once [ensureGogClientCredentials] has replaced the credentials
    file under a configuration root. *)
Definition credentialsWritten (JSON_stringify : json → string)
    (root cid secret : string) (w : world) : world :=
  {| processEnv := processEnv w; network := network w;
     stateFile := stateFile w; stateFileWritable := stateFileWritable w;
     credentialsFiles :=
       <[ root := JSON_stringify
                    (JObj {[ "client_id" := JStr cid; "client_secret" := JStr secret ]})
                  +:+ Str.newline ]> (credentialsFiles w);
     credentialsWritable := credentialsWritable w;
     processes := processes w; commandsRun := commandsRun w;
     stateWrites := stateWrites w; clockIso := clockIso w |}.

(** The argument vector of every import. *)
Definition importArgv : list string :=
  ["gog"; "--no-input"; "--plain"; "auth"; "tokens"; "import"; "-"].

(** A value of type [{ updatedAtIso: string }]. *)
Definition isWatermark (v : json) : Prop := ∃ s, v = watermark s.

(** A string made of slashes. *)
Fixpoint allSlashes (s : string) : bool :=
  match s with
  | EmptyString => true
  | String c rest => Ascii.eqb c "/"%char && allSlashes rest
  end.

(** A string that is empty or starts with a character that is not white
    space, as [trimStart] returns them. *)
Definition startsClean (s : string) : Prop :=
  match s with EmptyString => True | String c _ => Str.isWhiteSpace c = false end.

(** The number of timer ticks and of settled cycles in a run of events. *)
Fixpoint ticks (evs : list Scheduler.event) : nat :=
  match evs with
  | [] => 0
  | Scheduler.Tick :: rest => S (ticks rest)
  | Scheduler.Settle _ :: rest => ticks rest
  end.

Fixpoint settles (evs : list Scheduler.event) : nat :=
  match evs with
  | [] => 0
  | Scheduler.Tick :: rest => settles rest
  | Scheduler.Settle _ :: rest => S (settles rest)
  end.

(** ** The instance id of the UI *)

Module InstanceId.

Definition STORAGE_KEY : string := "openclaw-ui-instance-id-v1".

(** The browser as [loadOrCreateInstanceId] sees it: the items of
    [localStorage], whether reading it and writing it throw, and what
    [generateUUID] (imported from [./uuid.ts]) returns call after call. *)
Record browser := {
  items : gmap string string;
  getItemThrows : bool;
  setItemThrows : bool;
  uuids : nat → string;
  uuidCalls : nat;
}.

Definition getItem (key : string) (b : browser) : result (option string) :=
  if getItemThrows b then Threw "SecurityError" else Ok (items b !! key).

Definition setItem (key value : string) (b : browser) : result unit * browser :=
  if setItemThrows b then (Threw "QuotaExceededError", b)
  else (Ok tt,
        {| items := <[ key := value ]> (items b);
           getItemThrows := getItemThrows b; setItemThrows := setItemThrows b;
           uuids := uuids b; uuidCalls := uuidCalls b |}).

Definition generateUUID (b : browser) : string * browser :=
  (uuids b (uuidCalls b),
   {| items := items b;
      getItemThrows := getItemThrows b; setItemThrows := setItemThrows b;
      uuids := uuids b; uuidCalls := S (uuidCalls b) |}).

(** The first [try] block: the value it returns, if it returns. *)
Definition storedId (b : browser) : option string :=
  match getItem STORAGE_KEY b with
  | Ok raw =>
      let stored := match raw with Some s => Str.trim s | None => "" end in
      if Str.truthy stored then Some stored else None
  | Threw _ => None
  end.

Definition loadOrCreateInstanceId (b : browser) : string * browser :=
  match storedId b with
  | Some stored => (stored, b)
  | None =>
      let '(created, b1) := generateUUID b in
      (created, snd (setItem STORAGE_KEY created b1))
  end.

(** A browser with a working storage and a generator of distinct ids. *)
Definition demo (stored : gmap string string) : browser :=
  {| items := stored; getItemThrows := false; setItemThrows := false;
     uuids := λ n, "id-" +:+ pretty n; uuidCalls := 0 |}.

End InstanceId.

(** ** More runs of the example deployment *)

Module Demo.

(** A deployment whose first cycle failed to import, seen by the second. *)
Definition afterFailure : world :=
  snd (Example.reconcileOf ∅ Example.plain (Example.fresh 1)).

Definition steady : world :=
  Example.withStateFile (Text Example.stateText) (Example.fresh 0).

End Demo.

(** ** Facts about strings *)

Section StringFacts.

Lemma isWhiteSpace_lowerChar c :
  Str.isWhiteSpace (Str.lowerChar c) = Str.isWhiteSpace c.
Proof. destruct c as [[] [] [] [] [] [] [] []]; reflexivity. Qed.

Lemma isEmpty_toLowerCase s : Str.isEmpty (Str.toLowerCase s) = Str.isEmpty s.
Proof. destruct s; reflexivity. Qed.

Lemma isEmpty_true s : Str.isEmpty s = true ↔ s = "".
Proof. destruct s; simpl; split; congruence. Qed.

Lemma truthy_true s : Str.truthy s = true ↔ s ≠ "".
Proof. destruct s; cbn; intuition congruence. Qed.

Lemma trimStart_ws_app l s :
  Str.allWhiteSpace l = true → Str.trimStart (l +:+ s) = Str.trimStart s.
Proof.
  induction l as [|c l IH]; simpl; [done|].
  intros [Hc Hl]%andb_prop. rewrite Hc. auto.
Qed.

Lemma trimEnd_ws r : Str.allWhiteSpace r = true → Str.trimEnd r = "".
Proof.
  induction r as [|c r IH]; simpl; [done|].
  intros [Hc Hr]%andb_prop. rewrite (IH Hr), Hc. reflexivity.
Qed.

Lemma trimEnd_app_ws s r :
  Str.allWhiteSpace r = true → Str.trimEnd (s +:+ r) = Str.trimEnd s.
Proof.
  intros Hr. induction s as [|c s IH]; simpl.
  - by apply trimEnd_ws.
  - by rewrite IH.
Qed.

Lemma trimStart_ws r : Str.allWhiteSpace r = true → Str.trimStart r = "".
Proof.
  induction r as [|c r IH]; simpl; [done|].
  intros [-> Hr]%andb_prop. auto.
Qed.

Lemma trim_app_ws s r :
  Str.allWhiteSpace r = true → Str.trim (s +:+ r) = Str.trim s.
Proof.
  intros Hr. unfold Str.trim. induction s as [|c s IH]; simpl.
  - by rewrite trimStart_ws.
  - destruct (Str.isWhiteSpace c); [done|].
    simpl. by rewrite trimEnd_app_ws.
Qed.

Lemma trim_surrounded l c r :
  Str.allWhiteSpace l = true → Str.allWhiteSpace r = true →
  Str.trim (l +:+ c +:+ r) = Str.trim c.
Proof.
  intros Hl Hr. unfold Str.trim at 1. rewrite trimStart_ws_app by done.
  by apply trim_app_ws.
Qed.

Lemma toLowerCase_trimStart s :
  Str.toLowerCase (Str.trimStart s) = Str.trimStart (Str.toLowerCase s).
Proof.
  induction s as [|c s IH]; simpl; [done|].
  rewrite isWhiteSpace_lowerChar. by destruct (Str.isWhiteSpace c).
Qed.

Lemma toLowerCase_trimEnd s :
  Str.toLowerCase (Str.trimEnd s) = Str.trimEnd (Str.toLowerCase s).
Proof.
  induction s as [|c s IH]; simpl; [done|].
  rewrite isWhiteSpace_lowerChar, <- IH, isEmpty_toLowerCase.
  by destruct (Str.isWhiteSpace c && Str.isEmpty (Str.trimEnd s)).
Qed.

Lemma toLowerCase_trim s :
  Str.toLowerCase (Str.trim s) = Str.trim (Str.toLowerCase s).
Proof. unfold Str.trim. by rewrite toLowerCase_trimEnd, toLowerCase_trimStart. Qed.

End StringFacts.

(** ** The local state store *)

(** Running a bind: the second computation runs in the world the first one
    leaves, unless the first one throws. *)
Lemma bind_run {A B} (m : M A) (f : A → M B) w :
  (m ≫= f) w =
  match m w with
  | (Ok a, w') => f a w'
  | (Threw err, w') => (Threw err, w')
  end.
Proof. reflexivity. Qed.

(** [readState] is the total function [stateOnDisk] of the file and leaves the
    world as it is. *)
Lemma readState_eq JSON_parse w :
  readState JSON_parse w = (Ok (stateOnDisk JSON_parse (stateFile w)), w).
Proof.
  unfold readState, tryCatch, readFile, stateOnDisk, parseJson, mbind, M_bind.
  destruct (stateFile w) as [| |raw]; try reflexivity.
  destruct (JSON_parse raw) as [[]|]; reflexivity.
Qed.

(** C7. [readState] never throws: whatever the file system holds it resolves
    to a state and leaves the world untouched; and when the file is missing,
    unreadable, not valid JSON, or valid JSON that is not an object, the
    state it resolves to is the empty one. *)
Theorem readState_never_fails (JSON_parse : string → option json) (w : world) :
  (∃ state, readState JSON_parse w = (Ok state, w)) ∧
  (stateFile w = Absent ∨ stateFile w = Unreadable ∨
   (∃ raw, stateFile w = Text raw ∧
      (JSON_parse raw = None ∨
       ∃ j, JSON_parse raw = Some j ∧ ∀ fields, j ≠ JObj fields)) →
   readState JSON_parse w = (Ok ∅, w)).
Proof.
  split; [eexists; apply readState_eq|].
  rewrite readState_eq. unfold stateOnDisk.
  intros [->| [->| (raw & -> & [->| (j & -> & Hj)])]]; try reflexivity.
  destruct j; try reflexivity. by destruct (Hj fields).
Qed.

Lemma readState_never_fails_witness :
  readState (Example.parse ∅)
    (Example.withStateFile (Text "[]") (Example.deployment (Example.serving "") 0))
  = (Ok ∅, Example.withStateFile (Text "[]") (Example.deployment (Example.serving "") 0)).
Proof.
  apply (readState_never_fails (Example.parse ∅)).
  right; right. exists "[]". split; [reflexivity|].
  right. exists (JArr []). split; [reflexivity | discriminate].
Defined.

(** ** The snapshot fetcher *)

Section Fetcher.

Variable JSON_parse : string → option json.

(** The fetcher as a function of what the remote end answers. *)
Lemma fetchIntegrationSnapshot_eq apiUrl gatewayToken timeout w :
  fetchIntegrationSnapshot JSON_parse apiUrl gatewayToken timeout w =
  match network w (snapshotUrl apiUrl) ("Bearer " +:+ gatewayToken) timeout with
  | FetchRejected err => (Threw err, w)
  | FetchResolved res =>
      match body res with
      | Threw err => (Threw err, w)
      | Ok text =>
          (Ok (if res_ok res
               then JSON_parse text ≫= safeParse AlfieIntegrationSnapshotSchema
               else None), w)
      end
  end.
Proof.
  unfold fetchIntegrationSnapshot, snapshotUrl, mbind, M_bind, liftResult.
  destruct (network w _ _ timeout) as [err|res]; [reflexivity|].
  destruct (body res) as [text|err]; [|reflexivity].
  destruct (res_ok res); simpl; [|reflexivity].
  unfold tryCatch, parseJson.
  destruct (JSON_parse text) as [j|]; simpl; [|reflexivity].
  by destruct (safeParse AlfieIntegrationSnapshotSchema j).
Qed.


(** A body fails the schema when it has no [ok: true] or no google object
    under [integrations]. *)
Lemma schema_needs_ok_and_nesting j :
  prop j "ok" ≠ Some (JBool true) ∨
    (prop j "integrations" ≫= λ i, prop i "google") = None →
  safeParse AlfieIntegrationSnapshotSchema j = None.
Proof.
  unfold safeParse, AlfieIntegrationSnapshotSchema, Zod.object.
  destruct j as [| | | | |o]; try reflexivity. simpl.
  intros [Hok|Hnest].
  - destruct (o !! "ok") as [[|[]| | | |]|]; try reflexivity. by destruct Hok.
  - destruct (Zod.literalTrue (o !! "ok")); [simpl|reflexivity].
    destruct (Zod.stringMin1 (o !! "tenantId")); [simpl|reflexivity].
    destruct (Zod.stringMin1 (o !! "tenantStatus")); [simpl|reflexivity].
    destruct (Zod.stringMin1 (o !! "version")); [simpl|reflexivity].
    destruct (o !! "integrations") as [[| | | | |io]|]; try reflexivity.
    simpl in Hnest. rewrite Hnest. reflexivity.
Qed.

(** C9. A body without the literal [ok: true], or with the google object
    anywhere but under [integrations], fails the schema, and the fetcher
    resolves to no snapshot for it, whatever its other fields hold. *)
Theorem fetch_requires_ok_and_nesting apiUrl gatewayToken timeout w res text j :
  network w (snapshotUrl apiUrl) ("Bearer " +:+ gatewayToken) timeout
    = FetchResolved res →
  body res = Ok text →
  JSON_parse text = Some j →
  prop j "ok" ≠ Some (JBool true) ∨
    (prop j "integrations" ≫= λ i, prop i "google") = None →
  safeParse AlfieIntegrationSnapshotSchema j = None ∧
  fetchIntegrationSnapshot JSON_parse apiUrl gatewayToken timeout w = (Ok None, w).
Proof.
  intros Hnet Hbody Hparse Hshape.
  pose proof (schema_needs_ok_and_nesting j Hshape) as Hs.
  split; [done|].
  rewrite fetchIntegrationSnapshot_eq, Hnet, Hbody, Hparse. simpl.
  rewrite Hs. by destruct (res_ok res).
Qed.

End Fetcher.

(** The schema accepts the body of the example deployment, so the two
    rejections above are due to [ok] and to the nesting alone. *)
Example schema_accepts_example :
  safeParse AlfieIntegrationSnapshotSchema
    (Example.snapshotJson "v1" [Example.accountJson "user@example.com" "T1"])
  = Some (Example.snapshot [Example.account "user@example.com" "T1"]).
Proof. vm_compute. reflexivity. Qed.



Lemma fetch_requires_ok_and_nesting_witness :
  safeParse AlfieIntegrationSnapshotSchema
    (Example.flatJson "v1" [Example.accountJson "user@example.com" "T1"]) = None ∧
  fetchIntegrationSnapshot (Example.parse ∅) "https://api.example/" "token"
    (Num 10000) (Example.deployment (Example.serving "snapshot-flat") 0)
  = (Ok None, Example.deployment (Example.serving "snapshot-flat") 0).
Proof.
  eapply (fetch_requires_ok_and_nesting (Example.parse ∅)).
  - reflexivity.
  - reflexivity.
  - reflexivity.
  - right. reflexivity.
Defined.

(** ** The scheduler *)

Module SchedulerFacts.
Import Scheduler.

Lemma start_inv mode : reachable_inv (start mode).
Proof.
  unfold reachable_inv, start. destruct mode; simpl.
  - split_and!; [|by intros _ c ->%list_elem_of_singleton|done].
    intros c ->%list_elem_of_singleton. lia.
  - split_and!; [|intros _|done]; by intros c ?%elem_of_nil.
Qed.

Lemma step_inv s ev s' : reachable_inv s → step s ev = Some s' → reachable_inv s'.
Proof.
  intros (Hlt & Hoff & Hon). destruct ev as [c|]; simpl.
  - case_bool_decide as Hc; [|done]. intros [= <-].
    unfold reachable_inv; simpl. split_and!.
    + intros c' [_ Hin]%list_elem_of_filter. auto.
    + intros [Hts Hc0]%orb_false_elim c' [_ Hin]%list_elem_of_filter. auto.
    + intros Hts. split.
      * intros [Hne Hin]%list_elem_of_filter.
        apply orb_prop in Hts as [Hts|Hc0].
        -- by destruct (Hon Hts).
        -- apply bool_decide_eq_true in Hc0. congruence.
      * specialize (Hlt c Hc). lia.
  - destruct (timerSet s) eqn:Hts; [|done]. intros [= <-].
    destruct (Hon eq_refl) as [H0 Hpos].
    unfold reachable_inv; simpl. split_and!; [|done|].
    + intros c [Hin| ->%list_elem_of_singleton]%elem_of_app; [|lia].
      specialize (Hlt c Hin). lia.
    + intros _. split; [|lia].
      intros [Hin| Heq%list_elem_of_singleton]%elem_of_app; [done|lia].
Qed.

Lemma run_inv evs : ∀ s s', reachable_inv s → run s evs = Some s' → reachable_inv s'.
Proof.
  induction evs as [|ev evs IH]; simpl; intros s s' Hs.
  - by intros [= <-].
  - destruct (step s ev) as [s1|] eqn:Hstep; simpl; [|done].
    apply IH. by eapply step_inv.
Qed.

(** After the initial cycle has settled, [n] ticks leave [n] cycles in
    flight when none of them settles in between. *)
Lemma run_ticks n : ∀ s,
  timerSet s = true →
  ∃ s', run s (replicate n Tick) = Some s' ∧ timerSet s' = true ∧
        length (inFlight s') = length (inFlight s) + n.
Proof.
  induction n as [|n IH]; intros s Hts; simpl.
  - exists s. split_and!; [done|done|lia].
  - rewrite Hts. simpl.
    destruct (IH {| started := S (started s); inFlight := inFlight s ++ [started s];
                    timerSet := true |} eq_refl) as (s' & Hrun & Hts' & Hlen).
    exists s'. split_and!; [done|done|].
    rewrite Hlen. simpl. rewrite length_app. simpl. lia.
Qed.

(** C2, as amended.  The scheduler awaits the initial cycle before it sets
    the timer, so until then the initial cycle is the only one in flight and
    afterwards it is no longer in flight.  From then on every tick starts a
    new cycle, whether earlier ones are still in flight or not: no tick is
    skipped, and any number of cycles can be in flight together. *)
Theorem tick_starts_a_cycle_unconditionally :
  (∀ mode evs s,
     run (start mode) evs = Some s →
     (timerSet s = false → ∀ c, c ∈ inFlight s → c = 0) ∧
     (timerSet s = true →
        (0 ∉ inFlight s) ∧
        step s Tick = Some {| started := S (started s);
                              inFlight := inFlight s ++ [started s];
                              timerSet := true |} ∧
        started s ∉ inFlight s)) ∧
  (∀ n, ∃ evs s,
     run (start true) evs = Some s ∧ length (inFlight s) = n).
Proof.
  split.
  - intros mode evs s Hrun.
    destruct (run_inv evs _ _ (start_inv mode) Hrun) as (Hlt & Hoff & Hon).
    split; [done|]. intros Hts. destruct (Hon Hts) as [H0 _].
    split_and!; [done| |].
    + simpl. by rewrite Hts.
    + intros Hin. specialize (Hlt _ Hin). lia.
  - intros n.
    destruct (run_ticks n {| started := 1; inFlight := []; timerSet := true |} eq_refl)
      as (s & Hrun & _ & Hlen).
    exists (Settle 0 :: replicate n Tick), s. split; [|by rewrite Hlen].
    exact Hrun.
Qed.

Lemma tick_starts_a_cycle_unconditionally_witness :
  step {| started := 2; inFlight := [1]; timerSet := true |} Tick
  = Some {| started := 3; inFlight := [1; 2]; timerSet := true |}.
Proof.
  apply (proj1 tick_starts_a_cycle_unconditionally true [Settle 0; Tick]
           {| started := 2; inFlight := [1]; timerSet := true |}); reflexivity.
Defined.

(** C2, as stated, fails: when the first timer cycle is still in flight at
    the second tick, the second tick starts another cycle next to it. *)
Lemma overlapping_cycles_counterexample :
  ¬ (∀ mode evs s,
       run (start mode) evs = Some s → (length (inFlight s) ≤ 1)%nat).
Proof.
  intros H.
  specialize (H true [Settle 0; Tick; Tick]
                {| started := 3; inFlight := [1; 2]; timerSet := true |} eq_refl).
  simpl in H. lia.
Qed.

End SchedulerFacts.

(** ** The import loop *)

Section Loop.

Variable JSON_stringify : json → string.
Variables xdgConfigHome keyringPassword : string.

#[local] Abbreviation cmdOf := (commandFor JSON_stringify xdgConfigHome keyringPassword).
#[local] Abbreviation stepM := (importStep JSON_stringify xdgConfigHome keyringPassword).
#[local] Abbreviation loopM := (importLoop JSON_stringify xdgConfigHome keyringPassword).
#[local] Abbreviation turn1 := (turn JSON_stringify xdgConfigHome keyringPassword).
#[local] Abbreviation turnsOf := (turns JSON_stringify xdgConfigHome keyringPassword).

Lemma importStep_eq acc acct w :
  stepM acc acct w = (Ok (turn1 acc acct w).1, (turn1 acc acct w).2).
Proof.
  destruct acc as [g ch]. unfold importStep, turn. simpl.
  destruct (upToDate _ _); [reflexivity|].
  cbv [mbind M_bind mret M_ret importGogRefreshToken runCommandWithTimeout succeeds].
  fold (cmdOf acct). rewrite bool_decide_decide.
  by destruct (decide _).
Qed.

Lemma importLoop_eq accts : ∀ acc w,
  loopM accts acc w = (Ok (turnsOf accts acc w).1, (turnsOf accts acc w).2).
Proof.
  induction accts as [|acct rest IH]; intros acc w; simpl; [reflexivity|].
  unfold mbind, M_bind. rewrite importStep_eq. apply IH.
Qed.

Lemma turns_app l1 l2 acc w :
  turnsOf (l1 ++ l2) acc w = turnsOf l2 (turnsOf l1 acc w).1 (turnsOf l1 acc w).2.
Proof. revert acc w. induction l1 as [|a l1 IH]; intros acc w; simpl; auto. Qed.

Lemma extends_refl w : extends w w.
Proof. unfold extends. by split_and!. Qed.

Lemma extends_trans w1 w2 w3 : extends w1 w2 → extends w2 w3 → extends w1 w3.
Proof.
  unfold extends. intros (?&?&?&?&?&?&?&?&?&?) (?&?&?&?&?&?&?&?&?&?).
  split_and!; try congruence. by etrans.
Qed.

Lemma extends_ran cmd w : extends w (ran cmd w).
Proof. unfold extends, ran; simpl. split_and!; try done. by apply prefix_app_r. Qed.

Lemma turn_extends acc acct w : extends w (turn1 acc acct w).2.
Proof.
  unfold turn. destruct (upToDate _ _); [apply extends_refl|].
  destruct (succeeds _ _); apply extends_ran.
Qed.

Lemma turns_extends accts : ∀ acc w, extends w (turnsOf accts acc w).2.
Proof.
  induction accts as [|a rest IH]; intros acc w; simpl; [apply extends_refl|].
  eapply extends_trans; [apply turn_extends | apply IH].
Qed.

(** A turn leaves the watermarks of the other emails alone. *)
Lemma turn_lookup_ne acc acct w e :
  e ≠ email acct → (turn1 acc acct w).1.1 !! e = acc.1 !! e.
Proof.
  intros Hne. unfold turn. destruct (upToDate _ _); [done|].
  destruct (succeeds _ _); [simpl|done]. by rewrite lookup_insert_ne.
Qed.

Lemma turns_lookup_ne accts e : ∀ acc w,
  e ∉ email <$> accts → (turnsOf accts acc w).1.1 !! e = acc.1 !! e.
Proof.
  induction accts as [|a rest IH]; intros acc w Hnot; simpl; [done|].
  rewrite fmap_cons, not_elem_of_cons in Hnot. destruct Hnot as [Hne Hrest].
  rewrite IH by done. by apply turn_lookup_ne.
Qed.

(** A turn removes no key. *)
Lemma turn_lookup_is_Some acc acct w k :
  is_Some (acc.1 !! k) → is_Some ((turn1 acc acct w).1.1 !! k).
Proof.
  intros Hk. unfold turn. destruct (upToDate _ _); [done|].
  destruct (succeeds _ _); [simpl|done].
  rewrite lookup_insert. case_decide; [by eexists|done].
Qed.

Lemma turns_lookup_is_Some accts k : ∀ acc w,
  is_Some (acc.1 !! k) → is_Some ((turnsOf accts acc w).1.1 !! k).
Proof.
  induction accts as [|a rest IH]; intros acc w Hk; simpl; [done|].
  apply IH. by apply turn_lookup_is_Some.
Qed.





End Loop.

(** ** The cycle from [readState] on *)

Section Reconcile.

Variable JSON_parse : string → option json.
Variable JSON_stringify : json → string.
Variables xdgConfigHome keyringPassword : string.

#[local] Abbreviation cmdOf := (commandFor JSON_stringify xdgConfigHome keyringPassword).
#[local] Abbreviation stepM := (importStep JSON_stringify xdgConfigHome keyringPassword).
#[local] Abbreviation turn1 := (turn JSON_stringify xdgConfigHome keyringPassword).
#[local] Abbreviation turnsOf := (turns JSON_stringify xdgConfigHome keyringPassword).
#[local] Abbreviation loopM := (importLoop JSON_stringify xdgConfigHome keyringPassword).
#[local] Abbreviation resultOf := (loopResult JSON_stringify xdgConfigHome keyringPassword).
#[local] Abbreviation worldOf := (loopWorld JSON_stringify xdgConfigHome keyringPassword).
#[local] Abbreviation cycleM :=
  (reconcile JSON_parse JSON_stringify).

Lemma loopResult_eq accts g0 w : resultOf accts g0 w = (turnsOf accts (g0, false) w).1.
Proof. unfold loopResult, valueOf. by rewrite importLoop_eq. Qed.

Lemma loopWorld_eq accts g0 w : worldOf accts g0 w = (turnsOf accts (g0, false) w).2.
Proof. unfold loopWorld. by rewrite importLoop_eq. Qed.

Lemma writeState_eq next w :
  writeState JSON_stringify next w =
  if stateFileWritable w then (Ok tt, wrote JSON_stringify next w)
  else (Threw "EACCES", w).
Proof. reflexivity. Qed.

(** The cycle as a function of the file, the loop and the clock. *)
Lemma reconcile_eq snapshot accts w :
  cycleM snapshot accts xdgConfigHome keyringPassword w =
  let state := stateOnDisk JSON_parse (stateFile w) in
  let g0 := spread (state !! "google") in
  let g := (resultOf accts g0 w).1 in
  let changed := (resultOf accts g0 w).2 in
  let w' := worldOf accts g0 w in
  if changed || versionDiffers state (version snapshot) then
    writeState JSON_stringify (nextState state (version snapshot) g (clockIso w)) w'
  else (Ok tt, w').
Proof.
  unfold reconcile. cbv [mbind M_bind]. rewrite readState_eq.
  rewrite importLoop_eq, loopResult_eq, loopWorld_eq. cbv zeta.
  destruct (turnsOf accts _ w) as [[g ch] w'] eqn:Hr. simpl.
  destruct (ch || versionDiffers _ _); [|reflexivity].
  pose proof (turns_extends JSON_stringify xdgConfigHome keyringPassword accts
                (spread (stateOnDisk JSON_parse (stateFile w) !! "google"), false) w)
    as Hext.
  rewrite Hr in Hext. destruct Hext as (_&_&_&_&_&_&_&_&Hclock&_). simpl in Hclock.
  by rewrite Hclock.
Qed.

(** The test of the loop is the comparison of two strings. *)
Lemma upToDate_stored g e u :
  u ≠ "" → upToDate (prevOf (g !! e)) u = true ↔ storedWatermark g e = Some u.
Proof.
  intros Hu. unfold storedWatermark, prevOf, upToDate.
  destruct (g !! e) as [[| | | | |f]|]; try (split; [done|discriminate]); try done.
  - destruct (f !! "updatedAtIso") as [[| | |s| |]|];
      try (split; [done|discriminate]); try done.
    rewrite andb_true_iff, String.eqb_eq, truthy_true. split.
    + by intros [_ ->].
    + intros [= ->]. done.
Qed.

Lemma prevOf_watermark u : prevOf (Some (watermark u)) = JStr u.
Proof. unfold prevOf, watermark. by rewrite lookup_singleton_eq. Qed.


(** What one turn does, by the comparison of the two strings. *)
Lemma turn_up_to_date acc acct w :
  updatedAtIso acct ≠ "" →
  storedWatermark acc.1 (email acct) = Some (updatedAtIso acct) →
  turn1 acc acct w = (acc, w).
Proof.
  intros Hu Hs. unfold turn.
  by rewrite (proj2 (upToDate_stored _ _ _ Hu) Hs).
Qed.

Lemma turn_stale acc acct w :
  updatedAtIso acct ≠ "" →
  storedWatermark acc.1 (email acct) ≠ Some (updatedAtIso acct) →
  turn1 acc acct w =
  if succeeds (cmdOf acct) w
  then ((<[ email acct := watermark (updatedAtIso acct) ]> acc.1, true),
        ran (cmdOf acct) w)
  else (acc, ran (cmdOf acct) w).
Proof.
  intros Hu Hs. unfold turn.
  destruct (upToDate _ _) eqn:Hup; [|done].
  by apply (upToDate_stored _ _ _ Hu) in Hup.
Qed.

Lemma storedWatermark_turns_ne accts e acc w :
  e ∉ email <$> accts →
  storedWatermark (turnsOf accts acc w).1.1 e = storedWatermark acc.1 e.
Proof.
  intros Hne. unfold storedWatermark.
  by rewrite (turns_lookup_ne JSON_stringify xdgConfigHome keyringPassword
                accts e acc w Hne).
Qed.

(** C6. At the turn of an account [acct] that follows the accounts [pre] in a
    cycle started from the stored watermarks [g0], the loop compares the
    string [updatedAtIso] of the account with the watermark held for its
    email, which is the stored one when no earlier account of the cycle has
    that email.  Equal strings: the turn runs no command and changes nothing.
    A watermark that is absent or a different string: the turn runs the
    import command of the account.  No timestamp is parsed: the comparison
    is [String.eqb]. *)
Theorem import_decided_by_string_equality pre acct g0 w :
  updatedAtIso acct ≠ "" →
  (email acct ∉ email <$> pre →
     storedWatermark (resultOf pre g0 w).1 (email acct)
     = storedWatermark g0 (email acct)) ∧
  (storedWatermark (resultOf pre g0 w).1 (email acct) = Some (updatedAtIso acct) →
     stepM (resultOf pre g0 w) acct (worldOf pre g0 w)
     = (Ok (resultOf pre g0 w), worldOf pre g0 w)) ∧
  (storedWatermark (resultOf pre g0 w).1 (email acct) ≠ Some (updatedAtIso acct) →
     commandsRun (snd (stepM (resultOf pre g0 w) acct (worldOf pre g0 w)))
     = commandsRun (worldOf pre g0 w) ++ [cmdOf acct]).
Proof.
  intros Hu. rewrite loopResult_eq, loopWorld_eq. split_and!.
  - intros Hne. by rewrite storedWatermark_turns_ne.
  - intros Hs. by rewrite importStep_eq, turn_up_to_date.
  - intros Hs. rewrite importStep_eq, turn_stale by done.
    by destruct (succeeds _ _).
Qed.

(** The written value, when a cycle writes. *)
Lemma reconcile_writes snapshot accts w next :
  stateWrites (snd (cycleM snapshot accts xdgConfigHome keyringPassword w))
    = stateWrites w ++ [next] →
  next = nextState (stateOnDisk JSON_parse (stateFile w)) (version snapshot)
           (resultOf accts (spread (stateOnDisk JSON_parse (stateFile w) !! "google")) w).1
           (clockIso w).
Proof.
  rewrite reconcile_eq. cbv zeta. rewrite writeState_eq, loopWorld_eq.
  pose proof (turns_extends JSON_stringify xdgConfigHome keyringPassword accts
                (spread (stateOnDisk JSON_parse (stateFile w) !! "google"), false) w)
    as (_&_&_&Hwr&_&_&_&Hsw&_&_).
  assert (∀ (l : list (gmap string json)) x, l ≠ l ++ [x]) as Hneq.
  { intros l x Heq. apply (f_equal length) in Heq. rewrite length_app in Heq.
    simpl in Heq. lia. }
  destruct (_ || _); [destruct (stateFileWritable _)|]; simpl; rewrite Hsw; intros Heq.
  - by apply app_inj_tail in Heq as [_ <-].
  - by apply Hneq in Heq.
  - by apply Hneq in Heq.
Qed.

(** C10. When a cycle persists a state, the written [google] map keeps every
    key of the stored map, with its value unless the key is the normalized
    email of an account of the snapshot, and every top-level field of the
    stored state other than [version], [google] and [syncedAtIso] is written
    back as it was. *)
Theorem persisted_state_preserves_the_rest snapshot w next :
  stateWrites
    (snd (cycleM snapshot (normalizedAccounts (google (integrations snapshot)))
            xdgConfigHome keyringPassword w))
    = stateWrites w ++ [next] →
  (∃ g, next !! "google" = Some (JObj g) ∧
     ∀ k v,
       spread (stateOnDisk JSON_parse (stateFile w) !! "google") !! k = Some v →
       is_Some (g !! k) ∧
       (k ∉ (λ acct, normalizeEmail (email acct))
              <$> accounts (google (integrations snapshot)) →
        g !! k = Some v)) ∧
  (∀ k, k ≠ "version" → k ≠ "google" → k ≠ "syncedAtIso" →
     next !! k = stateOnDisk JSON_parse (stateFile w) !! k).
Proof.
  intros ->%reconcile_writes. unfold nextState. split.
  - eexists. split.
    { rewrite lookup_insert_ne by done. by rewrite lookup_insert_eq. }
    intros k v Hk. rewrite loopResult_eq. split.
    + apply turns_lookup_is_Some. simpl. by eexists.
    + intros Hnot. rewrite turns_lookup_ne; [done|].
      intros (a & -> & Ha)%list_elem_of_fmap. apply Hnot.
      unfold normalizedAccounts in Ha.
      apply list_elem_of_filter in Ha as [_ Ha].
      apply list_elem_of_fmap in Ha as (raw & -> & Hraw).
      apply list_elem_of_fmap. by exists raw.
  - intros k H1 H2 H3. by rewrite !lookup_insert_ne.
Qed.







(** The two ways a cycle can end: the file and the trace of writes are as
    they were, or the file has been replaced by the next state. *)
Lemma reconcile_outcome snapshot accts w :
  commandsRun (snd (cycleM snapshot accts xdgConfigHome keyringPassword w))
    = commandsRun (worldOf accts (spread (stateOnDisk JSON_parse (stateFile w) !! "google")) w) ∧
  ((stateWrites (snd (cycleM snapshot accts xdgConfigHome keyringPassword w))
      = stateWrites w ∧
    stateFile (snd (cycleM snapshot accts xdgConfigHome keyringPassword w))
      = stateFile w) ∨
   (∃ next,
      next !! "google"
        = Some (JObj (resultOf accts
                        (spread (stateOnDisk JSON_parse (stateFile w) !! "google")) w).1) ∧
      stateWrites (snd (cycleM snapshot accts xdgConfigHome keyringPassword w))
        = stateWrites w ++ [next] ∧
      stateFile (snd (cycleM snapshot accts xdgConfigHome keyringPassword w))
        = Text (JSON_stringify (JObj next) +:+ Str.newline))).
Proof.
  rewrite reconcile_eq. cbv zeta. rewrite writeState_eq, !loopWorld_eq.
  pose proof (turns_extends JSON_stringify xdgConfigHome keyringPassword accts
                (spread (stateOnDisk JSON_parse (stateFile w) !! "google"), false) w)
    as (_&_&Hsf&_&_&_&_&Hsw&_&_).
  destruct (_ || _); [destruct (stateFileWritable _)|]; simpl;
    (split; [reflexivity|]); rewrite ?Hsw, ?Hsf; [right|by left|by left].
  eexists. split_and!; [|reflexivity|reflexivity].
  unfold nextState. rewrite lookup_insert_ne by done. apply lookup_insert_eq.
Qed.


(** ** Two cycles in a row *)

(** A loop whose accounts all carry the watermark held for their email does
    nothing. *)
Lemma turns_noop accts g ch w :
  (∀ b, b ∈ accts →
     updatedAtIso b ≠ "" ∧ storedWatermark g (email b) = Some (updatedAtIso b)) →
  turnsOf accts (g, ch) w = ((g, ch), w).
Proof.
  induction accts as [|b rest IH]; intros Hall; simpl; [done|].
  destruct (Hall b) as [Hu Hs]; [by left|].
  rewrite turn_up_to_date by done. simpl.
  apply IH. intros b' Hb'. apply Hall. by right.
Qed.




(** ** Normalized emails *)





End Reconcile.

(** ** The statements at work in the example deployment *)

Section Runs.
Import Example.


Lemma import_decided_by_string_equality_witness :
  importStep stringify xdg keyring (imported, false)
    (account "user@example.com" "T1") (fresh 0)
    = (Ok (imported, false), fresh 0) ∧
  commandsRun (snd (importStep stringify xdg keyring (∅, false)
                      (account "user@example.com" "T1") (fresh 0)))
    = [commandFor stringify xdg keyring (account "user@example.com" "T1")].
Proof.
  split.
  - apply (import_decided_by_string_equality stringify xdg keyring []
             (account "user@example.com" "T1") imported (fresh 0));
      [discriminate | reflexivity].
  - apply (import_decided_by_string_equality stringify xdg keyring []
             (account "user@example.com" "T1") ∅ (fresh 0));
      discriminate.
Defined.


Lemma persisted_state_preserves_the_rest_witness :
  ∃ g, stateFields "v1" (old ∪ imported) !! "google" = Some (JObj g) ∧
       g !! "old@example.com" = Some (watermark "T0").
Proof.
  destruct (persisted_state_preserves_the_rest (parse old) stringify xdg keyring
              plain seeded (stateFields "v1" (old ∪ imported)))
    as [(g & Hg & Hkeep) _].
  - vm_compute. reflexivity.
  - exists g. split; [exact Hg|].
    apply (Hkeep "old@example.com" (watermark "T0")).
    + vm_compute. reflexivity.
    + vm_compute. intros H. inversion H as [|? ? ? H']; inversion H'.
Defined.





(** Two full cycles, the first against the padded, upper-case email and the
    second against the plain one: one command is run, one state is written,
    and its key is the normalized email. *)
Example consecutive_variants_import_once :
  commandsRun (snd (cycle imported
                      (withNetwork (serving "snapshot-plain")
                         (snd (cycle imported
                                 (deployment (serving "snapshot-padded") 0))))))
  = [commandFor stringify "/home/node/.openclaw" "token"
       (account "user@example.com" "T1")] ∧
  stateWrites (snd (cycle imported
                      (withNetwork (serving "snapshot-plain")
                         (snd (cycle imported
                                 (deployment (serving "snapshot-padded") 0))))))
  = [stateFields "v1" imported].
Proof. split; vm_compute; reflexivity. Qed.

End Runs.

(** ** What the schema guarantees, and how a full cycle reaches the loop *)

Lemma stringMin1_nonempty v s : Zod.stringMin1 v = Some s → s ≠ "".
Proof.
  unfold Zod.stringMin1. destruct v as [[| | |t| |]|]; try done.
  destruct t; simpl; [done|]. by intros [= <-].
Qed.

Lemma GoogleAccountSchema_valid v a :
  GoogleAccountSchema v = Some a → email a ≠ "" ∧ updatedAtIso a ≠ "".
Proof.
  unfold GoogleAccountSchema, Zod.object.
  destruct v as [[| | | | |o]|]; try done.
  intros H. apply bind_Some in H as (i & _ & H).
  apply bind_Some in H as (e & He & H).
  apply bind_Some in H as (r & _ & H).
  apply bind_Some in H as (sc & _ & H).
  apply bind_Some in H as (u & Hu & H).
  injection H as <-. simpl.
  split; by eapply stringMin1_nonempty.
Qed.

(** Every account of a snapshot that passes the schema has a non-empty email
    and a non-empty [updatedAtIso]. *)
Lemma snapshot_schema_valid j s :
  safeParse AlfieIntegrationSnapshotSchema j = Some s →
  Forall (λ acct, email acct ≠ "" ∧ updatedAtIso acct ≠ "")
    (accounts (google (integrations s))).
Proof.
  unfold safeParse, AlfieIntegrationSnapshotSchema, Zod.object.
  destruct j as [| | | | |o]; try done.
  intros H. apply bind_Some in H as (? & _ & H).
  apply bind_Some in H as (t & _ & H).
  apply bind_Some in H as (ts & _ & H).
  apply bind_Some in H as (v & _ & H).
  apply bind_Some in H as (i & Hi & H).
  injection H as <-. simpl.
  destruct (o !! "integrations") as [[| | | | |io]|]; try done.
  apply bind_Some in Hi as (g & Hg & Hi). injection Hi as <-. simpl.
  unfold GoogleIntegrationSchema, Zod.object in Hg.
  destruct (io !! "google") as [[| | | | |go]|]; try done.
  apply bind_Some in Hg as (c & _ & Hg).
  apply bind_Some in Hg as (ci & _ & Hg).
  apply bind_Some in Hg as (cs & _ & Hg).
  apply bind_Some in Hg as (a & Ha & Hg).
  injection Hg as <-. simpl.
  unfold Zod.array in Ha.
  destruct (go !! "accounts") as [[| | | |items|]|]; try done.
  apply mapM_Some in Ha.
  induction Ha as [|item acct items accts Hitem _ IH]; constructor; [|done].
  by eapply GoogleAccountSchema_valid.
Qed.

Section FullCycle.

Variable JSON_parse : string → option json.
Variable JSON_stringify : json → string.
Variable isTruthyEnvValue : option string → bool.
Variable hasBinary : string → bool.
Variable CONFIG_DIR : string.

(** When every gate is passed, [syncAlfieIntegrationsOnce] writes the client
    credentials and runs the cycle [reconcile] on the normalized accounts of
    the fetched snapshot. *)
Lemma sync_reaches_reconcile params w snapshot cid secret :
  isTruthyEnvValue (processEnv w !! "ALFIE_MODE") = true →
  Str.trim (default (default "" (processEnv w !! "ALFIE_API_URL"))
                    (params ≫= apiUrl)) ≠ "" →
  Str.trim (default (default "" (processEnv w !! "OPENCLAW_GATEWAY_TOKEN"))
                    (params ≫= gatewayToken)) ≠ "" →
  hasBinary "gog" = true →
  fetchIntegrationSnapshot JSON_parse
    (Str.trim (default (default "" (processEnv w !! "ALFIE_API_URL"))
                       (params ≫= apiUrl)))
    (Str.trim (default (default "" (processEnv w !! "OPENCLAW_GATEWAY_TOKEN"))
                       (params ≫= gatewayToken)))
    (default (NumberOf (default "10000"
                (processEnv w !! "ALFIE_INTEGRATION_SNAPSHOT_TIMEOUT_MS")))
             (params ≫= timeoutMs)) w
    = (Ok (Some snapshot), w) →
  configured (google (integrations snapshot)) = true →
  clientId (google (integrations snapshot)) = Some cid →
  clientSecret (google (integrations snapshot)) = Some secret →
  cid ≠ "" → secret ≠ "" →
  normalizedAccounts (google (integrations snapshot)) ≠ [] →
  syncAlfieIntegrationsOnce JSON_parse JSON_stringify isTruthyEnvValue hasBinary
    CONFIG_DIR params w
  = (ensureGogClientCredentials JSON_stringify
       (resolveXdgConfigHome CONFIG_DIR (processEnv w)) cid secret ;;
     reconcile JSON_parse JSON_stringify snapshot
       (normalizedAccounts (google (integrations snapshot)))
       (resolveXdgConfigHome CONFIG_DIR (processEnv w))
       (Str.orElse (Str.trim (default "" (processEnv w !! "GOG_KEYRING_PASSWORD")))
          (Str.trim (default (default "" (processEnv w !! "OPENCLAW_GATEWAY_TOKEN"))
                             (params ≫= gatewayToken))))) w.
Proof.
  intros Hmode Hurl Htok Hbin Hfetch Hconf Hcid Hsec Hc Hs Haccts.
  apply truthy_true in Hurl, Htok, Hc, Hs.
  unfold syncAlfieIntegrationsOnce.
  rewrite bind_run. cbv beta iota zeta.
  rewrite Hmode, Hurl, Htok, Hbin. cbn [negb].
  rewrite bind_run, Hfetch. cbv beta iota zeta.
  rewrite Hconf, Hcid, Hsec, Hc, Hs. cbn [negb orb].
  by destruct (decide (normalizedAccounts _ = [])).
Qed.

(** When the request is rejected, the full cycle ends with the same error
    and leaves the world as it was. *)
Lemma sync_fetch_rejected params w err :
  isTruthyEnvValue (processEnv w !! "ALFIE_MODE") = true →
  Str.trim (default (default "" (processEnv w !! "ALFIE_API_URL"))
                    (params ≫= apiUrl)) ≠ "" →
  Str.trim (default (default "" (processEnv w !! "OPENCLAW_GATEWAY_TOKEN"))
                    (params ≫= gatewayToken)) ≠ "" →
  hasBinary "gog" = true →
  (∀ url header timeout, network w url header timeout = FetchRejected err) →
  syncAlfieIntegrationsOnce JSON_parse JSON_stringify isTruthyEnvValue hasBinary
    CONFIG_DIR params w
  = (Threw err, w).
Proof.
  intros Hmode Hurl Htok Hbin Hnet.
  apply truthy_true in Hurl, Htok.
  unfold syncAlfieIntegrationsOnce.
  rewrite bind_run. cbv beta iota zeta.
  rewrite Hmode, Hurl, Htok, Hbin. cbn [negb].
  by rewrite bind_run, fetchIntegrationSnapshot_eq, Hnet.
Qed.

End FullCycle.

(** * Further properties of the code *)

(** ** More facts about strings *)

Section MoreStringFacts.

Lemma lowerChar_idem c : Str.lowerChar (Str.lowerChar c) = Str.lowerChar c.
Proof. destruct c as [[] [] [] [] [] [] [] []]; reflexivity. Qed.

Lemma toLowerCase_idem s : Str.toLowerCase (Str.toLowerCase s) = Str.toLowerCase s.
Proof. induction s as [|c s IH]; simpl; [done|]. by rewrite lowerChar_idem, IH. Qed.

Lemma trimEnd_idem s : Str.trimEnd (Str.trimEnd s) = Str.trimEnd s.
Proof.
  induction s as [|c s IH]; simpl; [done|].
  destruct (Str.isWhiteSpace c && Str.isEmpty (Str.trimEnd s)) eqn:Hc; [done|].
  simpl. by rewrite IH, Hc.
Qed.

Lemma trimStart_startsClean s : startsClean (Str.trimStart s).
Proof.
  induction s as [|c s IH]; simpl; [done|].
  destruct (Str.isWhiteSpace c) eqn:Hc; [done|]. simpl. done.
Qed.

Lemma trimStart_clean s : startsClean s → Str.trimStart s = s.
Proof. destruct s as [|c s]; simpl; [done|]. by intros ->. Qed.

Lemma trimEnd_startsClean s : startsClean s → startsClean (Str.trimEnd s).
Proof. destruct s as [|c s]; simpl; [done|]. intros Hc. by rewrite Hc. Qed.

Lemma trim_startsClean s : startsClean (Str.trim s).
Proof. apply trimEnd_startsClean, trimStart_startsClean. Qed.

Lemma trim_idem s : Str.trim (Str.trim s) = Str.trim s.
Proof.
  unfold Str.trim at 1. rewrite trimStart_clean by apply trim_startsClean.
  unfold Str.trim. apply trimEnd_idem.
Qed.

Lemma app_nil_r_string s : s +:+ "" = s.
Proof.
  induction s as [|c s IH]; [done|].
  change (String c s +:+ "") with (String c (s +:+ "")). by rewrite IH.
Qed.

Lemma stripTrailingSlashes_slashes t :
  allSlashes t = true → Str.stripTrailingSlashes t = "".
Proof.
  induction t as [|c t IH]; simpl; [done|].
  intros [Hc Ht]%andb_prop. by rewrite (IH Ht), Hc.
Qed.

Lemma stripTrailingSlashes_app s t :
  allSlashes t = true →
  Str.stripTrailingSlashes (s +:+ t) = Str.stripTrailingSlashes s.
Proof.
  intros Ht. induction s as [|c s IH]; simpl.
  - by apply stripTrailingSlashes_slashes.
  - by rewrite IH.
Qed.

Lemma stripTrailingSlashes_no_slash s p :
  Str.stripTrailingSlashes s ≠ p +:+ "/".
Proof.
  revert p. induction s as [|c s IH]; intros p; simpl.
  - by destruct p.
  - destruct (Ascii.eqb c "/" && Str.isEmpty (Str.stripTrailingSlashes s)) eqn:Hc.
    + by destruct p.
    + destruct p as [|x p]; simpl.
      * intros [= -> Hs]. by rewrite Hs in Hc.
      * intros [= _ Hs]. by apply IH in Hs.
Qed.

Lemma slash_not_white c : Ascii.eqb c "/" = true → Str.isWhiteSpace c = false.
Proof. by intros ->%Ascii.eqb_eq. Qed.

Lemma trimEnd_app_slashes s t :
  t ≠ "" → allSlashes t = true → Str.trimEnd (s +:+ t) = s +:+ t.
Proof.
  intros Hne Ht.
  assert (Str.trimEnd t = t) as Htt.
  { clear Hne. induction t as [|c t IH]; simpl; [done|].
    apply andb_prop in Ht as [Hc Ht]. by rewrite (slash_not_white c Hc), IH. }
  induction s as [|c s IH]; [done|].
  change (String c s +:+ t) with (String c (s +:+ t)). simpl.
  rewrite IH. destruct (s +:+ t) eqn:Hst.
  - destruct s; [by destruct t|done].
  - by rewrite andb_false_r.
Qed.

Lemma trim_app_slashes s t :
  startsClean s → allSlashes t = true → t ≠ "" →
  Str.trim (s +:+ t) = s +:+ t.
Proof.
  intros Hs Ht Hne. unfold Str.trim.
  rewrite trimStart_clean; [by apply trimEnd_app_slashes|].
  destruct s as [|c s]; simpl; [|done].
  destruct t as [|c t]; [done|]. simpl in *.
  apply andb_prop in Ht as [Hc _]. by apply slash_not_white.
Qed.

End MoreStringFacts.

(** ** The base address and the normalized emails *)

(** X1. The base address the fetcher builds on never ends with a slash, so
    the requested address joins base and path with exactly the slash of the
    path; and white space around the configured address and slashes at its
    end do not change it. *)
Theorem normalizeBaseUrl_trailing_slashes :
  (∀ raw p, normalizeBaseUrl raw ≠ p +:+ "/") ∧
  (∀ l s t r,
     Str.allWhiteSpace l = true → Str.allWhiteSpace r = true →
     allSlashes t = true →
     normalizeBaseUrl (l +:+ (Str.trim s +:+ t) +:+ r) = normalizeBaseUrl s ∧
     snapshotUrl (l +:+ (Str.trim s +:+ t) +:+ r) = snapshotUrl s).
Proof.
  split.
  - intros raw p. apply stripTrailingSlashes_no_slash.
  - intros l s t r Hl Hr Ht.
    assert (normalizeBaseUrl (l +:+ (Str.trim s +:+ t) +:+ r) = normalizeBaseUrl s)
      as Heq.
    { unfold normalizeBaseUrl. rewrite trim_surrounded by done.
      destruct t as [|c t].
      - by rewrite app_nil_r_string, trim_idem.
      - rewrite trim_app_slashes; [|apply trim_startsClean|done|done].
        by apply stripTrailingSlashes_app. }
    split; [done|]. unfold snapshotUrl. by rewrite Heq.
Qed.

Lemma normalizeBaseUrl_trailing_slashes_witness :
  normalizeBaseUrl ("  " +:+ (Str.trim "https://api.example" +:+ "//") +:+ " ")
  = normalizeBaseUrl "https://api.example" ∧
  snapshotUrl ("  " +:+ (Str.trim "https://api.example" +:+ "//") +:+ " ")
  = snapshotUrl "https://api.example".
Proof.
  apply (proj2 normalizeBaseUrl_trailing_slashes "  " "https://api.example" "//" " ");
    reflexivity.
Defined.

Lemma normalizeEmail_idem e : normalizeEmail (normalizeEmail e) = normalizeEmail e.
Proof.
  unfold normalizeEmail.
  by rewrite <- toLowerCase_trim, toLowerCase_idem, trim_idem.
Qed.

(** X2. Normalizing is idempotent: a normalized email is its own normal
    form, it has no white space around it and no upper-case letter, and the
    accounts a cycle works on come out unchanged, in the same order, when
    they are normalized again. *)
Theorem normalization_is_idempotent :
  (∀ e, normalizeEmail (normalizeEmail e) = normalizeEmail e ∧
        Str.trim (normalizeEmail e) = normalizeEmail e ∧
        Str.toLowerCase (normalizeEmail e) = normalizeEmail e) ∧
  (∀ g, normalizedAccounts
          {| configured := configured g; clientId := clientId g;
             clientSecret := clientSecret g; accounts := normalizedAccounts g |}
        = normalizedAccounts g).
Proof.
  split.
  - intros e. split_and!.
    + apply normalizeEmail_idem.
    + unfold normalizeEmail. by rewrite toLowerCase_trim, trim_idem.
    + unfold normalizeEmail. apply toLowerCase_idem.
  - intros g. unfold normalizedAccounts. simpl.
    induction (accounts g) as [|a l IH]; [done|].
    rewrite fmap_cons, filter_cons. simpl.
    destruct (decide (Str.truthy (normalizeEmail (email a)) = true)) as [Ht|Hf].
    + rewrite fmap_cons, filter_cons. simpl.
      rewrite normalizeEmail_idem. rewrite decide_True by done.
      f_equal; [|exact IH].
      unfold normalizeAccount. simpl. by rewrite normalizeEmail_idem.
    + exact IH.
Qed.

(** ** The fetcher, the importer and the store *)

Lemma GoogleAccountSchema_nonempty v a :
  GoogleAccountSchema v = Some a →
  acctId a ≠ "" ∧ email a ≠ "" ∧ refreshToken a ≠ "" ∧ updatedAtIso a ≠ "".
Proof.
  unfold GoogleAccountSchema, Zod.object.
  destruct v as [[| | | | |o]|]; try done.
  intros H. apply bind_Some in H as (i & Hi & H).
  apply bind_Some in H as (e & He & H).
  apply bind_Some in H as (r & Hr & H).
  apply bind_Some in H as (sc & _ & H).
  apply bind_Some in H as (u & Hu & H).
  injection H as <-. simpl.
  split_and!; by eapply stringMin1_nonempty.
Qed.

Lemma snapshot_schema_nonempty j s :
  safeParse AlfieIntegrationSnapshotSchema j = Some s →
  prop j "ok" = Some (JBool true) ∧
  tenantId s ≠ "" ∧ tenantStatus s ≠ "" ∧ version s ≠ "" ∧
  Forall (λ acct, acctId acct ≠ "" ∧ email acct ≠ "" ∧
                  refreshToken acct ≠ "" ∧ updatedAtIso acct ≠ "")
    (accounts (google (integrations s))).
Proof.
  unfold safeParse, AlfieIntegrationSnapshotSchema, Zod.object.
  destruct j as [| | | | |o]; try done.
  intros H. apply bind_Some in H as (? & Hok & H).
  apply bind_Some in H as (t & Ht & H).
  apply bind_Some in H as (ts & Hts & H).
  apply bind_Some in H as (v & Hv & H).
  apply bind_Some in H as (i & Hi & H).
  injection H as <-. simpl.
  split_and!; try by eapply stringMin1_nonempty.
  { unfold Zod.literalTrue in Hok.
    by destruct (o !! "ok") as [[|[]| | | |]|]. }
  destruct (o !! "integrations") as [[| | | | |io]|]; try done.
  apply bind_Some in Hi as (g & Hg & Hi). injection Hi as <-. simpl.
  unfold GoogleIntegrationSchema, Zod.object in Hg.
  destruct (io !! "google") as [[| | | | |go]|]; try done.
  apply bind_Some in Hg as (c & _ & Hg).
  apply bind_Some in Hg as (ci & _ & Hg).
  apply bind_Some in Hg as (cs & _ & Hg).
  apply bind_Some in Hg as (a & Ha & Hg).
  injection Hg as <-. simpl.
  unfold Zod.array in Ha.
  destruct (go !! "accounts") as [[| | | |items|]|]; try done.
  apply mapM_Some in Ha.
  induction Ha as [|item acct items accts Hitem _ IH]; constructor; [|done].
  by eapply GoogleAccountSchema_nonempty.
Qed.

(** X3. A snapshot comes out of the fetcher only from a 2xx response whose
    body parses and passes the schema, and then it is whole: [ok] was
    [true], the tenant id, tenant status and version are non-empty, and every
    account has a non-empty id, email, refresh token and [updatedAtIso].  The
    fetcher leaves the world as it found it. *)
Theorem fetched_snapshot_is_whole
    (JSON_parse : string → option json) apiUrl gatewayToken timeout w s w' :
  fetchIntegrationSnapshot JSON_parse apiUrl gatewayToken timeout w = (Ok (Some s), w') →
  w' = w ∧
  (∃ res text j,
     network w (snapshotUrl apiUrl) ("Bearer " +:+ gatewayToken) timeout
       = FetchResolved res ∧
     res_ok res = true ∧ body res = Ok text ∧ JSON_parse text = Some j ∧
     prop j "ok" = Some (JBool true) ∧
     safeParse AlfieIntegrationSnapshotSchema j = Some s) ∧
  tenantId s ≠ "" ∧ tenantStatus s ≠ "" ∧ version s ≠ "" ∧
  Forall (λ acct, acctId acct ≠ "" ∧ email acct ≠ "" ∧
                  refreshToken acct ≠ "" ∧ updatedAtIso acct ≠ "")
    (accounts (google (integrations s))).
Proof.
  rewrite fetchIntegrationSnapshot_eq.
  destruct (network w _ _ timeout) as [err|res] eqn:Hnet; [done|].
  destruct (body res) as [text|err] eqn:Hbody; [|done].
  destruct (res_ok res) eqn:Hok; [|done].
  destruct (JSON_parse text) as [j|] eqn:Hparse; [|done].
  simpl. intros [= Hs <-].
  destruct (snapshot_schema_nonempty j s Hs) as (Hokj & Ht & Hts & Hv & Hall).
  split_and!; try done.
  by exists res, text, j.
Qed.

Lemma fetched_snapshot_is_whole_witness :
  tenantId (Example.snapshot [Example.account "user@example.com" "T1"]) ≠ "" ∧
  Forall (λ acct, acctId acct ≠ "" ∧ email acct ≠ "" ∧
                  refreshToken acct ≠ "" ∧ updatedAtIso acct ≠ "")
    [Example.account "user@example.com" "T1"].
Proof.
  destruct (fetched_snapshot_is_whole (Example.parse ∅) "https://api.example/"
              "token" (Num 10000) (Example.fresh 0)
              (Example.snapshot [Example.account "user@example.com" "T1"])
              (Example.fresh 0))
    as (_ & _ & Ht & _ & _ & Hall).
  - vm_compute. reflexivity.
  - split; [exact Ht | exact Hall].
Defined.

Section Importer.

Variable JSON_stringify : json → string.


End Importer.


Section Store.

Variable JSON_parse : string → option json.
Variable JSON_stringify : json → string.

(** X5. What [writeState] writes, [readState] reads back, when the text of
    the state parses back to the state; and when the file cannot be replaced
    [writeState] throws and a later [readState] resolves to what it resolved
    to before. *)
Theorem written_state_is_read_back next w :
  (stateFileWritable w = true →
   JSON_parse (JSON_stringify (JObj next) +:+ Str.newline) = Some (JObj next) →
   (writeState JSON_stringify next ≫= λ _, readState JSON_parse) w
   = (Ok next, wrote JSON_stringify next w)) ∧
  (stateFileWritable w = false →
   (∃ err, writeState JSON_stringify next w = (Threw err, w)) ∧
   fst (readState JSON_parse (snd (writeState JSON_stringify next w)))
   = fst (readState JSON_parse w)).
Proof.
  split.
  - intros Hw Hround. rewrite bind_run, writeState_eq, Hw, readState_eq.
    simpl. by rewrite Hround.
  - intros Hw. rewrite writeState_eq, Hw. split; [by eexists|done].
Qed.

End Store.

Lemma written_state_is_read_back_witness :
  (writeState Example.stringify (Example.stateFields "v1" Example.imported)
     ≫= λ _, readState (Example.parse Example.imported)) (Example.fresh 0)
  = (Ok (Example.stateFields "v1" Example.imported),
     wrote Example.stringify (Example.stateFields "v1" Example.imported)
       (Example.fresh 0)).
Proof.
  apply (proj1 (written_state_is_read_back (Example.parse Example.imported)
                  Example.stringify _ _)); reflexivity.
Defined.

(** ** The commands of the loop *)

Section LoopCommands.

Variable JSON_stringify : json → string.
Variables xdgConfigHome keyringPassword : string.

#[local] Abbreviation cmdOf := (commandFor JSON_stringify xdgConfigHome keyringPassword).
#[local] Abbreviation turn1 := (turn JSON_stringify xdgConfigHome keyringPassword).
#[local] Abbreviation turnsOf := (turns JSON_stringify xdgConfigHome keyringPassword).
#[local] Abbreviation resultOf := (loopResult JSON_stringify xdgConfigHome keyringPassword).
#[local] Abbreviation worldOf := (loopWorld JSON_stringify xdgConfigHome keyringPassword).

Lemma turns_commands accts : ∀ acc w,
  ∃ l, commandsRun (turnsOf accts acc w).2 = commandsRun w ++ l ∧
       l `sublist_of` (cmdOf <$> accts).
Proof.
  induction accts as [|a rest IH]; intros acc w; simpl.
  - exists []. by rewrite app_nil_r.
  - destruct (IH (turn1 acc a w).1 (turn1 acc a w).2) as (l & Hl & Hsub).
    rewrite Hl. unfold turn. destruct (upToDate _ _); simpl.
    + exists l. split; [done|]. by apply sublist_cons.
    + exists (cmdOf a :: l). split.
      * destruct (succeeds _ _); simpl; by rewrite <- app_assoc.
      * by apply sublist_skip.
Qed.

(** X6. The loop runs at most one command per account, in the order of the
    accounts: the commands it adds are a sublist of the import commands of
    the accounts, so there are no more of them than accounts. *)
Theorem one_import_per_account_in_order accts g0 w :
  ∃ l,
    commandsRun (loopWorld JSON_stringify xdgConfigHome keyringPassword accts g0 w)
      = commandsRun w ++ l ∧
    l `sublist_of`
      (commandFor JSON_stringify xdgConfigHome keyringPassword <$> accts) ∧
    (length l ≤ length accts)%nat.
Proof.
  rewrite loopWorld_eq.
  destruct (turns_commands accts (g0, false) w) as (l & Hl & Hsub).
  exists l. split_and!; [done|done|].
  apply sublist_length in Hsub. by rewrite length_fmap in Hsub.
Qed.

Lemma turns_provenance accts : ∀ acc w k v,
  (turnsOf accts acc w).1.1 !! k = Some v →
  acc.1 !! k = Some v ∨
  ∃ a, a ∈ accts ∧ email a = k ∧ v = watermark (updatedAtIso a).
Proof.
  induction accts as [|a rest IH]; intros acc w k v Hk; simpl in *; [by left|].
  apply IH in Hk as [Hk|(b & Hb & He & Hv)].
  - unfold turn in Hk. destruct (upToDate _ _); [by left|].
    destruct (succeeds _ _); simpl in Hk; [|by left].
    destruct (decide (email a = k)) as [<-|Hne].
    + rewrite lookup_insert_eq in Hk. injection Hk as <-.
      right. exists a. split; [by left|done].
    + rewrite lookup_insert_ne in Hk by done. by left.
  - right. exists b. split; [by right|done].
Qed.

(** X7. The loop invents no watermark: every entry of the map it ends with
    is an entry of the map it started from or the [updatedAtIso] of an
    account of the snapshot under the email of that account.  So a map whose
    values all have the shape [{ updatedAtIso }] keeps that shape. *)
Theorem watermarks_come_from_the_snapshot accts g0 w :
  (∀ k v, (resultOf accts g0 w).1 !! k = Some v →
          g0 !! k = Some v ∨
          ∃ a, a ∈ accts ∧ email a = k ∧ v = watermark (updatedAtIso a)) ∧
  (map_Forall (λ _ v, isWatermark v) g0 →
   map_Forall (λ _ v, isWatermark v) (resultOf accts g0 w).1).
Proof.
  rewrite loopResult_eq.
  assert (∀ k v, (turnsOf accts (g0, false) w).1.1 !! k = Some v →
                 g0 !! k = Some v ∨
                 ∃ a, a ∈ accts ∧ email a = k ∧ v = watermark (updatedAtIso a))
    as Hprov.
  { intros k v Hk. by apply turns_provenance in Hk. }
  split; [done|].
  intros Hwf k v Hk. apply Hprov in Hk as [Hk|(a & _ & _ & ->)].
  - by apply (Hwf k).
  - by eexists.
Qed.

End LoopCommands.

Lemma watermarks_come_from_the_snapshot_witness :
  map_Forall (λ _ v, isWatermark v)
    (loopResult Example.stringify Example.xdg Example.keyring
       (normalizedAccounts (google (integrations Example.plain)))
       Example.old (Example.fresh 0)).1.
Proof.
  apply (watermarks_come_from_the_snapshot Example.stringify Example.xdg
           Example.keyring).
  apply map_Forall_singleton. by exists "T0".
Defined.

(** ** The full cycle *)

Section Sync.

Variable JSON_parse : string → option json.
Variable JSON_stringify : json → string.
Variable isTruthyEnvValue : option string → bool.
Variable hasBinary : string → bool.
Variable CONFIG_DIR : string.

#[local] Abbreviation syncM :=
  (syncAlfieIntegrationsOnce JSON_parse JSON_stringify isTruthyEnvValue hasBinary
     CONFIG_DIR).

(** The full cycle, gate by gate. *)
Lemma sync_eq params w :
  syncM params w =
  if isTruthyEnvValue (processEnv w !! "ALFIE_MODE")
     && Str.truthy (resolvedApiUrl params w)
     && Str.truthy (resolvedToken params w)
     && hasBinary "gog"
  then
    match fetchIntegrationSnapshot JSON_parse (resolvedApiUrl params w)
            (resolvedToken params w) (resolvedTimeout params w) w with
    | (Threw err, _) => (Threw err, w)
    | (Ok None, _) => (Ok tt, w)
    | (Ok (Some snapshot), _) =>
        match clientCredentials (google (integrations snapshot)) with
        | None => (Ok tt, w)
        | Some (cid, secret) =>
            if decide (normalizedAccounts (google (integrations snapshot)) = [])
            then (Ok tt, w)
            else
              (ensureGogClientCredentials JSON_stringify
                 (resolveXdgConfigHome CONFIG_DIR (processEnv w)) cid secret ;;
               reconcile JSON_parse JSON_stringify snapshot
                 (normalizedAccounts (google (integrations snapshot)))
                 (resolveXdgConfigHome CONFIG_DIR (processEnv w))
                 (resolvedKeyring params w)) w
        end
    end
  else (Ok tt, w).
Proof.
  unfold syncAlfieIntegrationsOnce, resolvedKeyring.
  rewrite bind_run. cbv beta iota zeta.
  fold (resolvedApiUrl params w) (resolvedToken params w) (resolvedTimeout params w).
  destruct (isTruthyEnvValue _); [|done].
  destruct (Str.truthy (resolvedApiUrl params w)); [|done].
  destruct (Str.truthy (resolvedToken params w)); [|done].
  destruct (hasBinary "gog"); [|done].
  cbn [negb andb]. rewrite bind_run.
  pose proof (fetchIntegrationSnapshot_eq JSON_parse (resolvedApiUrl params w)
                (resolvedToken params w) (resolvedTimeout params w) w) as Hf.
  destruct (fetchIntegrationSnapshot _ _ _ _ w) as [[[s|]|err] w'] eqn:Hfetch.
  - assert (w' = w) as ->.
    { destruct (network w _ _ _); [done|]. destruct (body _); by inversion Hf. }
    unfold clientCredentials.
    destruct (configured _); [|done].
    destruct (clientId _) as [cid|]; [|done].
    destruct (clientSecret _) as [secret|]; [|done].
    destruct (Str.truthy cid), (Str.truthy secret); try done.
    cbn [negb orb andb]. by destruct (decide _).
  - destruct (network w _ _ _); [done|]. destruct (body _); by inversion Hf.
  - destruct (network w _ _ _); [by inversion Hf|]. destruct (body _); by inversion Hf.
Qed.

(** X8. With the feature off, or the address of the API or the gateway token
    blank, or the [gog] binary missing, a cycle does nothing: it ends without
    an error and leaves the world as it was, whatever the remote end and the
    disk would do.  A blank address or token given in [params] is not
    replaced by the one of the environment. *)
Theorem unconfigured_cycle_does_nothing params w :
  (isTruthyEnvValue (processEnv w !! "ALFIE_MODE") = false ∨
   resolvedApiUrl params w = "" ∨ resolvedToken params w = "" ∨
   hasBinary "gog" = false →
   syncM params w = (Ok tt, w)) ∧
  (∀ p blank,
     params = Some p →
     Str.allWhiteSpace blank = true →
     apiUrl p = Some blank ∨ gatewayToken p = Some blank →
     syncM params w = (Ok tt, w)).
Proof.
  assert (isTruthyEnvValue (processEnv w !! "ALFIE_MODE") = false ∨
          resolvedApiUrl params w = "" ∨ resolvedToken params w = "" ∨
          hasBinary "gog" = false →
          syncM params w = (Ok tt, w)) as Hgate.
  { intros Hoff. rewrite sync_eq.
    destruct Hoff as [-> | [-> | [-> | ->]]]; simpl; try done.
    - by rewrite andb_false_r.
    - by rewrite !andb_false_r.
    - by rewrite !andb_false_r. }
  split; [done|].
  intros p blank -> Hblank [Hp|Hp]; apply Hgate.
  - right; left. unfold resolvedApiUrl. simpl. rewrite Hp. simpl.
    unfold Str.trim. by rewrite trimStart_ws.
  - right; right; left. unfold resolvedToken. simpl. rewrite Hp. simpl.
    unfold Str.trim. by rewrite trimStart_ws.
Qed.

(** X9. A snapshot that cannot be used ends the cycle before anything is
    written or run: when the fetcher resolves to no snapshot, when the google
    integration is not configured, when its client id or secret is null or
    empty, and when every account has a blank email, the cycle ends without
    an error and leaves the world, the client credentials included, as it
    was. *)
Theorem unusable_snapshot_changes_nothing params w o w' :
  fetchIntegrationSnapshot JSON_parse (resolvedApiUrl params w)
    (resolvedToken params w) (resolvedTimeout params w) w = (Ok o, w') →
  o = None ∨
  (∃ s, o = Some s ∧
     (configured (google (integrations s)) = false ∨
      clientId (google (integrations s)) = None ∨
      clientId (google (integrations s)) = Some "" ∨
      clientSecret (google (integrations s)) = None ∨
      clientSecret (google (integrations s)) = Some "" ∨
      Forall (λ acct, Str.allWhiteSpace (email acct) = true)
        (accounts (google (integrations s))))) →
  syncM params w = (Ok tt, w).
Proof.
  intros Hfetch Hbad. rewrite sync_eq, Hfetch.
  destruct (_ && _ && _ && _); [|done].
  destruct Hbad as [-> | (s & -> & Hbad)]; [done|].
  unfold clientCredentials.
  destruct Hbad as [-> | [-> | [-> | [Hs | [Hs | Hall]]]]]; try done.
  - by destruct (configured _).
  - destruct (configured _); [|done]. by destruct (clientSecret _).
  - rewrite Hs. destruct (configured _); [|done]. by destruct (clientId _).
  - rewrite Hs. destruct (configured _); [|done].
    destruct (clientId _); [|done]. simpl. by rewrite andb_false_r.
  - assert (normalizedAccounts (google (integrations s)) = []) as ->.
    { unfold normalizedAccounts.
      induction Hall as [|a l Ha _ IH]; [done|].
      rewrite fmap_cons, filter_cons. simpl.
      assert (normalizeEmail (email a) = "") as ->.
      { unfold normalizeEmail, Str.trim. by rewrite trimStart_ws. }
      destruct (decide _) as [Hd|_]; [discriminate Hd | exact IH]. }
    destruct (configured _); [|done].
    destruct (clientId _); [|done].
    destruct (clientSecret _); [|done].
    by destruct (_ && _).
Qed.

Lemma ensure_eq root cid secret w :
  ensureGogClientCredentials JSON_stringify root cid secret w =
  if credentialsWritable w
  then (Ok tt, credentialsWritten JSON_stringify root cid secret w)
  else (Threw "EACCES", w).
Proof. reflexivity. Qed.

(** A cycle either leaves the world as it was, or writes the client
    credentials and runs [reconcile] in the world that leaves. *)
Lemma sync_cases params w :
  (snd (syncM params w) = w ∧
   (fst (syncM params w) = Ok tt ∨
    (∃ err, fst (syncM params w) = Threw err ∧
            fst (fetchIntegrationSnapshot JSON_parse (resolvedApiUrl params w)
                   (resolvedToken params w) (resolvedTimeout params w) w)
            = Threw err) ∨
    (∃ err, fst (syncM params w) = Threw err ∧ credentialsWritable w = false))) ∨
  (∃ s cid secret,
     resolvedToken params w ≠ "" ∧
     credentialsWritable w = true ∧
     syncM params w =
     reconcile JSON_parse JSON_stringify s
       (normalizedAccounts (google (integrations s)))
       (resolveXdgConfigHome CONFIG_DIR (processEnv w))
       (resolvedKeyring params w)
       (credentialsWritten JSON_stringify
          (resolveXdgConfigHome CONFIG_DIR (processEnv w)) cid secret w)).
Proof.
  rewrite sync_eq.
  destruct (isTruthyEnvValue _); [|left; by split; [|left]].
  destruct (Str.truthy (resolvedApiUrl params w)); [|left; by split; [|left]].
  destruct (Str.truthy (resolvedToken params w)) eqn:Htok;
    [|left; by split; [|left]].
  destruct (hasBinary "gog"); [|left; by split; [|left]].
  cbn [andb].
  destruct (fetchIntegrationSnapshot _ _ _ _ w) as [[[s|]|err] w'] eqn:Hfetch.
  - destruct (clientCredentials _) as [[cid secret]|]; [|left; by split; [|left]].
    destruct (decide _); [left; by split; [|left]|].
    rewrite bind_run, ensure_eq.
    destruct (credentialsWritable w) eqn:Hw.
    + right. exists s, cid, secret. split_and!; [by apply truthy_true|done|done].
    + left. split; [done|]. right; right. by eexists.
  - left. by split; [|left].
  - left. split; [done|]. right; left. by eexists.
Qed.

Lemma reconcile_ok snapshot accts xdg key w :
  stateFileWritable w = true →
  fst (reconcile JSON_parse JSON_stringify snapshot accts xdg key w) = Ok tt.
Proof.
  intros Hw. rewrite reconcile_eq. cbv zeta. rewrite writeState_eq, loopWorld_eq.
  pose proof (turns_extends JSON_stringify xdg key accts
                (spread (stateOnDisk JSON_parse (stateFile w) !! "google"), false) w)
    as (_&_&_&Hwr&_).
  rewrite Hwr, Hw. by destruct (_ || _).
Qed.

Lemma reconcile_throws snapshot accts xdg key w err :
  fst (reconcile JSON_parse JSON_stringify snapshot accts xdg key w) = Threw err →
  stateFileWritable w = false.
Proof.
  destruct (stateFileWritable w) eqn:Hw; [|done].
  by rewrite reconcile_ok.
Qed.

(** X10. Failures stay inside the cycle: when the request gets a response
    with a body and the two files can be replaced, the cycle ends without an
    error, whatever the status, the body, the accounts and the exit codes of
    the tool.  A cycle that throws throws the error of the request, or was
    refused one of its two writes. *)
Theorem cycle_contains_failures params w :
  (∀ res text,
     network w (snapshotUrl (resolvedApiUrl params w))
       ("Bearer " +:+ resolvedToken params w) (resolvedTimeout params w)
       = FetchResolved res →
     body res = Ok text →
     credentialsWritable w = true → stateFileWritable w = true →
     fst (syncM params w) = Ok tt) ∧
  (∀ err,
     fst (syncM params w) = Threw err →
     network w (snapshotUrl (resolvedApiUrl params w))
       ("Bearer " +:+ resolvedToken params w) (resolvedTimeout params w)
       = FetchRejected err ∨
     (∃ res,
        network w (snapshotUrl (resolvedApiUrl params w))
          ("Bearer " +:+ resolvedToken params w) (resolvedTimeout params w)
          = FetchResolved res ∧ body res = Threw err) ∨
     credentialsWritable w = false ∨ stateFileWritable w = false).
Proof.
  split.
  - intros res text Hnet Hbody Hcw Hsw.
    destruct (sync_cases params w)
      as [[_ [Hok|[(err & _ & Hf)|(err & _ & Hc)]]]|(s & cid & secret & _ & _ & ->)].
    + done.
    + rewrite fetchIntegrationSnapshot_eq, Hnet, Hbody in Hf. done.
    + congruence.
    + by apply reconcile_ok.
  - intros err Herr.
    destruct (sync_cases params w)
      as [[_ [Hok|[(e & He & Hf)|(e & _ & Hc)]]]|(s & cid & secret & _ & _ & Heq)].
    + congruence.
    + assert (e = err) as -> by congruence.
      rewrite fetchIntegrationSnapshot_eq in Hf.
      destruct (network w _ _ _) as [e|res] eqn:Hnet.
      * left. simpl in Hf. congruence.
      * right; left. exists res. split; [done|].
        destruct (body res); simpl in Hf; [done|congruence].
    + by right; right; left.
    + right; right; right. rewrite Heq in Herr.
      by apply reconcile_throws in Herr.
Qed.

Lemma cmdOf_fields xdg key a :
  argv (commandFor JSON_stringify xdg key a) = importArgv ∧
  cmdTimeoutMs (commandFor JSON_stringify xdg key a) = Num 30000 ∧
  cmdEnv (commandFor JSON_stringify xdg key a) !! "GOG_KEYRING_BACKEND" = Some "file" ∧
  cmdEnv (commandFor JSON_stringify xdg key a) !! "XDG_CONFIG_HOME" = Some xdg ∧
  cmdEnv (commandFor JSON_stringify xdg key a) !! "GOG_KEYRING_PASSWORD" = Some key.
Proof. split_and!; reflexivity. Qed.

(** X11. The only commands a cycle runs are imports: each command it adds is
    [gog --no-input --plain auth tokens import -] with a timeout of 30000 ms,
    the file keyring, the resolved configuration root and a passphrase that
    is never empty: the keyring password of the environment, or the gateway
    token when that is blank. *)
Theorem cycle_runs_only_imports params w cmd :
  cmd ∈ commandsRun (snd (syncM params w)) →
  cmd ∈ commandsRun w ∨
  (argv cmd = importArgv ∧
   cmdTimeoutMs cmd = Num 30000 ∧
   cmdEnv cmd !! "GOG_KEYRING_BACKEND" = Some "file" ∧
   cmdEnv cmd !! "XDG_CONFIG_HOME"
     = Some (resolveXdgConfigHome CONFIG_DIR (processEnv w)) ∧
   cmdEnv cmd !! "GOG_KEYRING_PASSWORD" = Some (resolvedKeyring params w) ∧
   resolvedKeyring params w ≠ "").
Proof.
  intros Hin.
  destruct (sync_cases params w) as [[Hw _]|(s & cid & secret & Htok & _ & Heq)].
  { left. by rewrite Hw in Hin. }
  rewrite Heq in Hin.
  destruct (reconcile_outcome JSON_parse JSON_stringify
              (resolveXdgConfigHome CONFIG_DIR (processEnv w))
              (resolvedKeyring params w) s
              (normalizedAccounts (google (integrations s)))
              (credentialsWritten JSON_stringify
                 (resolveXdgConfigHome CONFIG_DIR (processEnv w)) cid secret w))
    as [Hcmds _].
  rewrite Hcmds, loopWorld_eq in Hin.
  destruct (turns_commands JSON_stringify
              (resolveXdgConfigHome CONFIG_DIR (processEnv w))
              (resolvedKeyring params w)
              (normalizedAccounts (google (integrations s)))
              (spread (stateOnDisk JSON_parse
                         (stateFile (credentialsWritten JSON_stringify
                            (resolveXdgConfigHome CONFIG_DIR (processEnv w))
                            cid secret w)) !! "google"), false)
              (credentialsWritten JSON_stringify
                 (resolveXdgConfigHome CONFIG_DIR (processEnv w)) cid secret w))
    as (l & Hl & Hsub).
  rewrite Hl in Hin. simpl in Hin.
  apply elem_of_app in Hin as [Hin|Hin]; [by left|right].
  apply (elem_of_sublist _ _ _ Hin) in Hsub. rename Hsub into Hin'.
  clear Hin. rename Hin' into Hin.
  apply list_elem_of_fmap in Hin as (a & -> & _).
  destruct (cmdOf_fields (resolveXdgConfigHome CONFIG_DIR (processEnv w))
              (resolvedKeyring params w) a) as (?&?&?&?&?).
  split_and!; try done.
  unfold resolvedKeyring, Str.orElse.
  destruct (Str.truthy (Str.trim _)) eqn:Hk; [by apply truthy_true|done].
Qed.

(** X12. What a cycle leaves alone: the environment, the remote end, the
    tool and the clock are as they were; the commands run before are still
    there, in front; the credentials files under every other root are
    untouched; and the state file is written at most once, the trace of
    writes growing with it. *)
Theorem cycle_frame params w :
  processEnv (snd (syncM params w)) = processEnv w ∧
  network (snd (syncM params w)) = network w ∧
  processes (snd (syncM params w)) = processes w ∧
  clockIso (snd (syncM params w)) = clockIso w ∧
  commandsRun w `prefix_of` commandsRun (snd (syncM params w)) ∧
  (∀ root, root ≠ resolveXdgConfigHome CONFIG_DIR (processEnv w) →
     credentialsFiles (snd (syncM params w)) !! root = credentialsFiles w !! root) ∧
  ((stateWrites (snd (syncM params w)) = stateWrites w ∧
    stateFile (snd (syncM params w)) = stateFile w) ∨
   (∃ next,
      stateWrites (snd (syncM params w)) = stateWrites w ++ [next] ∧
      stateFile (snd (syncM params w))
        = Text (JSON_stringify (JObj next) +:+ Str.newline))).
Proof.
  destruct (sync_cases params w) as [[Hw _]|(s & cid & secret & _ & _ & Heq)].
  { rewrite Hw. split_and!; try done. by left. }
  rewrite Heq.
  set (xdg := resolveXdgConfigHome CONFIG_DIR (processEnv w)).
  set (w1 := credentialsWritten JSON_stringify xdg cid secret w).
  set (accts := normalizedAccounts (google (integrations s))).
  destruct (reconcile_outcome JSON_parse JSON_stringify xdg
              (resolvedKeyring params w) s accts w1) as [Hcmds Hout].
  pose proof (reconcile_eq JSON_parse JSON_stringify xdg
                (resolvedKeyring params w) s accts w1) as Hrec.
  cbv zeta in Hrec. rewrite writeState_eq, loopWorld_eq in Hrec.
  pose proof (turns_extends JSON_stringify xdg (resolvedKeyring params w) accts
                (spread (stateOnDisk JSON_parse (stateFile w1) !! "google"), false) w1)
    as (He & Hn & _ & _ & Hcf & _ & Hp & _ & Hc & Hpre).
  assert (∀ A (f : world → A),
            (∀ next w0, f (wrote JSON_stringify next w0) = f w0) →
            f (snd (reconcile JSON_parse JSON_stringify s accts xdg
                      (resolvedKeyring params w) w1))
            = f (turns JSON_stringify xdg (resolvedKeyring params w) accts
                   (spread (stateOnDisk JSON_parse (stateFile w1) !! "google"), false)
                   w1).2) as Hfield.
  { intros A f Hf. rewrite Hrec.
    destruct (_ || _); [destruct (stateFileWritable _)|]; simpl; by rewrite ?Hf. }
  split_and!.
  - by rewrite (Hfield _ processEnv), He.
  - by rewrite (Hfield _ network), Hn.
  - by rewrite (Hfield _ processes), Hp.
  - by rewrite (Hfield _ clockIso), Hc.
  - by rewrite (Hfield _ commandsRun).
  - intros root Hroot. rewrite (Hfield _ credentialsFiles), Hcf by done.
    simpl. by rewrite lookup_insert_ne.
  - destruct Hout as [[Hsw Hsf]|(next & _ & Hsw & Hsf)].
    + left. by split.
    + right. exists next. by split.
Qed.

End Sync.

(** ** From one cycle to the next *)

Section NextCycle.

Variable JSON_parse : string → option json.
Variable JSON_stringify : json → string.
Variables xdgConfigHome keyringPassword : string.

#[local] Abbreviation cmdOf := (commandFor JSON_stringify xdgConfigHome keyringPassword).
#[local] Abbreviation turn1 := (turn JSON_stringify xdgConfigHome keyringPassword).
#[local] Abbreviation turnsOf := (turns JSON_stringify xdgConfigHome keyringPassword).
#[local] Abbreviation worldOf := (loopWorld JSON_stringify xdgConfigHome keyringPassword).
#[local] Abbreviation cycleM := (reconcile JSON_parse JSON_stringify).

(** X13. A cycle in which every account already carries the watermark stored
    for its email, against a snapshot whose version is the stored one, is a
    fixed point: it runs no command, writes nothing, and hands back the
    world it was given. *)
Theorem steady_cycle_is_a_fixed_point snapshot accts w :
  (∀ a, a ∈ accts →
     updatedAtIso a ≠ "" ∧
     storedWatermark (spread (stateOnDisk JSON_parse (stateFile w) !! "google"))
       (email a) = Some (updatedAtIso a)) →
  stateOnDisk JSON_parse (stateFile w) !! "version" = Some (JStr (version snapshot)) →
  cycleM snapshot accts xdgConfigHome keyringPassword w = (Ok tt, w).
Proof.
  intros Hup Hver. rewrite reconcile_eq. cbv zeta.
  rewrite loopResult_eq, loopWorld_eq.
  rewrite (turns_noop JSON_stringify xdgConfigHome keyringPassword accts _ false w Hup).
  simpl. unfold versionDiffers. rewrite Hver. by rewrite String.eqb_refl.
Qed.

Lemma failed_turn_keeps_entry pre acct post g0 w :
  updatedAtIso acct ≠ "" →
  email acct ∉ email <$> (pre ++ post) →
  storedWatermark g0 (email acct) ≠ Some (updatedAtIso acct) →
  succeeds (cmdOf acct) (turnsOf pre (g0, false) w).2 = false →
  (turnsOf (pre ++ acct :: post) (g0, false) w).1.1 !! email acct
  = g0 !! email acct.
Proof.
  intros Hu Hne Hstale Hfail.
  rewrite fmap_app, not_elem_of_app in Hne. destruct Hne as [Hpre Hpost].
  rewrite turns_app. simpl.
  rewrite turn_stale; [|done|by rewrite storedWatermark_turns_ne].
  rewrite Hfail. simpl.
  rewrite turns_lookup_ne by done. by rewrite turns_lookup_ne.
Qed.

Lemma stale_turn_runs_command pre acct post g0 w :
  updatedAtIso acct ≠ "" →
  email acct ∉ email <$> pre →
  storedWatermark g0 (email acct) ≠ Some (updatedAtIso acct) →
  ∃ l, commandsRun (turnsOf (pre ++ acct :: post) (g0, false) w).2
         = commandsRun w ++ l ∧ cmdOf acct ∈ l.
Proof.
  intros Hu Hpre Hstale. rewrite turns_app. simpl.
  destruct (turns_commands JSON_stringify xdgConfigHome keyringPassword pre
              (g0, false) w) as (l1 & Hl1 & _).
  set (r := turnsOf pre (g0, false) w) in *.
  rewrite turn_stale; [|done|unfold r; by rewrite storedWatermark_turns_ne].
  destruct (turns_commands JSON_stringify xdgConfigHome keyringPassword post
              (if succeeds (cmdOf acct) r.2
               then (<[email acct:=watermark (updatedAtIso acct)]> r.1.1, true,
                     ran (cmdOf acct) r.2)
               else (r.1, ran (cmdOf acct) r.2)).1
              (if succeeds (cmdOf acct) r.2
               then (<[email acct:=watermark (updatedAtIso acct)]> r.1.1, true,
                     ran (cmdOf acct) r.2)
               else (r.1, ran (cmdOf acct) r.2)).2) as (l2 & Hl2 & _).
  rewrite Hl2.
  exists (l1 ++ [cmdOf acct] ++ l2). split.
  - destruct (succeeds _ _); simpl; rewrite Hl1; by rewrite <- !app_assoc.
  - apply elem_of_app; right. by left.
Qed.

(** X14. A failed import is retried: when the import of an account, the only
    one of the cycle with its email, fails in a cycle, and the state that
    cycle wrote, if any, reads back as written, the next cycle against the
    same accounts runs the import command of that account again. *)
Theorem failed_import_is_retried snapshot pre acct post w :
  updatedAtIso acct ≠ "" →
  email acct ∉ email <$> (pre ++ post) →
  storedWatermark (spread (stateOnDisk JSON_parse (stateFile w) !! "google"))
    (email acct) ≠ Some (updatedAtIso acct) →
  succeeds (cmdOf acct)
    (worldOf pre (spread (stateOnDisk JSON_parse (stateFile w) !! "google")) w)
    = false →
  (∀ next,
     stateWrites (snd (cycleM snapshot (pre ++ acct :: post)
                         xdgConfigHome keyringPassword w))
       = stateWrites w ++ [next] →
     JSON_parse (JSON_stringify (JObj next) +:+ Str.newline) = Some (JObj next)) →
  ∃ l,
    commandsRun
      (snd (cycleM snapshot (pre ++ acct :: post) xdgConfigHome keyringPassword
              (snd (cycleM snapshot (pre ++ acct :: post)
                      xdgConfigHome keyringPassword w))))
    = commandsRun (snd (cycleM snapshot (pre ++ acct :: post)
                          xdgConfigHome keyringPassword w)) ++ l ∧
    cmdOf acct ∈ l.
Proof.
  intros Hu Hne Hstale Hfail Hround.
  set (g0 := spread (stateOnDisk JSON_parse (stateFile w) !! "google")) in *.
  set (accts := pre ++ acct :: post) in *.
  set (w1 := snd (cycleM snapshot accts xdgConfigHome keyringPassword w)) in *.
  rewrite loopWorld_eq in Hfail.
  pose proof (failed_turn_keeps_entry pre acct post g0 w Hu Hne Hstale Hfail) as Hkeep.
  fold accts in Hkeep.
  assert (storedWatermark (spread (stateOnDisk JSON_parse (stateFile w1) !! "google"))
            (email acct) ≠ Some (updatedAtIso acct)) as Hstale1.
  { destruct (reconcile_outcome JSON_parse JSON_stringify xdgConfigHome
                keyringPassword snapshot accts w) as [_ Hout].
    fold w1 g0 in Hout.
    destruct Hout as [[_ Hsf]|(next & Hg & Hsw & Hsf)].
    - rewrite Hsf. exact Hstale.
    - rewrite Hsf. simpl. rewrite (Hround next Hsw), Hg. simpl.
      rewrite loopResult_eq. unfold storedWatermark. rewrite Hkeep.
      exact Hstale. }
  destruct (reconcile_outcome JSON_parse JSON_stringify xdgConfigHome
              keyringPassword snapshot accts w1) as [Hcmds _].
  rewrite Hcmds, loopWorld_eq.
  apply stale_turn_runs_command; [done| |done].
  rewrite fmap_app, not_elem_of_app in Hne. by destruct Hne.
Qed.

End NextCycle.

(** ** More about the scheduler *)

Module SchedulerMore.
Import Scheduler.

Lemma filter_ne_length (l : list nat) c :
  NoDup l → c ∈ l → S (length (filter (λ c', c' ≠ c) l)) = length l.
Proof.
  induction l as [|x l IH]; intros Hnd Hin; [by apply elem_of_nil in Hin|].
  apply NoDup_cons in Hnd as [Hx Hnd]. rewrite filter_cons.
  destruct (decide (x ≠ c)) as [Hne|Heq]; simpl.
  - apply elem_of_cons in Hin as [->|Hin]; [done|]. by rewrite IH.
  - apply dec_stable in Heq as ->. f_equal.
    clear IH Hin Hnd. induction l as [|y l IH]; [done|].
    apply not_elem_of_cons in Hx as [Hy Hx]. rewrite filter_cons.
    rewrite decide_True by done. simpl. by rewrite IH.
Qed.

Lemma run_accounting evs : ∀ s s',
  NoDup (inFlight s) → (∀ c, c ∈ inFlight s → c < started s) →
  run s evs = Some s' →
  NoDup (inFlight s') ∧ (∀ c, c ∈ inFlight s' → c < started s') ∧
  started s' = started s + ticks evs ∧
  length (inFlight s') + settles evs = length (inFlight s) + ticks evs.
Proof.
  induction evs as [|ev evs IH]; intros s s' Hnd Hlt; simpl.
  - intros [= <-]. split_and!; [done|done|lia|lia].
  - destruct (step s ev) as [s1|] eqn:Hstep; simpl; [|done].
    intros Hrun. destruct ev as [c|]; simpl in Hstep.
    + case_bool_decide as Hc; [|done]. injection Hstep as <-.
      destruct (IH {| started := started s;
                      inFlight := filter (λ c' : nat, c' ≠ c) (inFlight s);
                      timerSet := timerSet s || bool_decide (c = 0) |} s')
        as (H1 & H2 & H3 & H4); simpl.
      { by apply NoDup_filter. }
      { intros c' [_ Hc']%list_elem_of_filter. by apply Hlt. }
      { done. }
      simpl in *. split_and!; [done|done|done|].
      pose proof (filter_ne_length _ _ Hnd Hc). lia.
    + destruct (timerSet s); [|done]. injection Hstep as <-.
      assert (NoDup (inFlight s ++ [started s])) as Hnd1.
      { apply NoDup_app. split_and!; [done| |apply NoDup_singleton].
        intros c Hc ->%list_elem_of_singleton. specialize (Hlt _ Hc). lia. }
      assert (∀ c, c ∈ inFlight s ++ [started s] → c < S (started s)) as Hlt1.
      { intros c [Hc| ->%list_elem_of_singleton]%elem_of_app; [|lia].
        specialize (Hlt _ Hc). lia. }
      destruct (IH {| started := S (started s);
                      inFlight := inFlight s ++ [started s];
                      timerSet := true |} s' Hnd1 Hlt1 Hrun) as (H1 & H2 & H3 & H4).
      simpl in *. rewrite length_app in H4. simpl in H4.
      split_and!; [done|done|lia|lia].
Qed.

(** X15. With the feature off the scheduler does nothing, ever: no event can
    reach it, no cycle starts and the timer is not set. *)
Theorem disabled_scheduler_is_inert evs s :
  run (start false) evs = Some s →
  evs = [] ∧ started s = 0 ∧ inFlight s = [] ∧ timerSet s = false.
Proof.
  destruct evs as [|[c|] evs]; simpl.
  - by intros [= <-].
  - done.
  - done.
Qed.

(** X16. With the feature on, the cycles are accounted for: one cycle at
    the start and one more for each tick; no cycle is in flight twice; and
    each started cycle is in flight or has settled, once. *)
Theorem every_cycle_is_accounted_for evs s :
  run (start true) evs = Some s →
  started s = S (ticks evs) ∧
  NoDup (inFlight s) ∧
  (∀ c, c ∈ inFlight s → c < started s) ∧
  length (inFlight s) + settles evs = started s.
Proof.
  intros Hrun.
  destruct (run_accounting evs (start true) s) as (H1 & H2 & H3 & H4); simpl.
  - apply NoDup_singleton.
  - intros c ->%list_elem_of_singleton. lia.
  - done.
  - simpl in *. split_and!; [lia|done|done|lia].
Qed.

Lemma disabled_scheduler_is_inert_witness :
  started (start false) = 0 ∧ timerSet (start false) = false.
Proof.
  destruct (disabled_scheduler_is_inert [] (start false) eq_refl) as (_ & H1 & _ & H2).
  by split.
Defined.

Lemma every_cycle_is_accounted_for_witness :
  started {| started := 3; inFlight := [2]; timerSet := true |}
  = S (ticks [Settle 0; Tick; Tick; Settle 1]).
Proof.
  apply (every_cycle_is_accounted_for [Settle 0; Tick; Tick; Settle 1]
           {| started := 3; inFlight := [2]; timerSet := true |}).
  reflexivity.
Defined.

End SchedulerMore.

(** ** The instance id *)

Module InstanceIdFacts.
Import InstanceId.

Lemma storedId_Some b stored :
  storedId b = Some stored ↔
  getItemThrows b = false ∧ stored ≠ "" ∧
  ∃ raw, items b !! STORAGE_KEY = Some raw ∧ stored = Str.trim raw.
Proof.
  unfold storedId, getItem. destruct (getItemThrows b).
  { split; [done|]. by intros [? _]. }
  destruct (items b !! STORAGE_KEY) as [raw|].
  - destruct (Str.truthy (Str.trim raw)) eqn:Ht.
    + apply truthy_true in Ht. split.
      * intros [= <-]. split_and!; [done|done|]. by exists raw.
      * intros (_ & _ & raw' & [= <-] & ->). done.
    + split; [done|]. intros (_ & Hne & raw' & [= <-] & ->).
      apply truthy_true in Hne. congruence.
  - simpl. split; [done|]. by intros (_ & _ & raw & ? & _).
Qed.

(** X17. The instance id is stable.  With a storage that can be read and
    written and a generator whose id is not blank and has no white space
    around it, a second call returns the id of the first call and changes
    nothing more; the id is not empty, and the storage holds it under the
    key, up to surrounding white space.  An id found in the storage is
    returned trimmed, and the browser is left as it was. *)
Theorem instance_id_is_stable b :
  getItemThrows b = false → setItemThrows b = false →
  uuids b (uuidCalls b) ≠ "" →
  Str.trim (uuids b (uuidCalls b)) = uuids b (uuidCalls b) →
  loadOrCreateInstanceId (snd (loadOrCreateInstanceId b))
    = (fst (loadOrCreateInstanceId b), snd (loadOrCreateInstanceId b)) ∧
  fst (loadOrCreateInstanceId b) ≠ "" ∧
  Str.trim <$> (items (snd (loadOrCreateInstanceId b)) !! STORAGE_KEY)
    = Some (fst (loadOrCreateInstanceId b)) ∧
  (∀ raw, items b !! STORAGE_KEY = Some raw → Str.trim raw ≠ "" →
          loadOrCreateInstanceId b = (Str.trim raw, b)).
Proof.
  intros Hget Hset Hne Htrim.
  assert (∀ raw, items b !! STORAGE_KEY = Some raw → Str.trim raw ≠ "" →
                 storedId b = Some (Str.trim raw)) as Hreuse.
  { intros raw Hraw Hr. apply storedId_Some. split_and!; [done|done|]. by exists raw. }
  destruct (storedId b) as [stored|] eqn:Hs.
  - assert (loadOrCreateInstanceId b = (stored, b)) as Hl.
    { unfold loadOrCreateInstanceId. by rewrite Hs. }
    rewrite !Hl. simpl. rewrite Hl.
    apply storedId_Some in Hs as (_ & Hst & raw & Hraw & ->).
    split_and!; [done|done|by rewrite Hraw|].
    intros raw' Hraw' Hr. congruence.
  - set (b2 := {| items := <[STORAGE_KEY:=uuids b (uuidCalls b)]> (items b);
                  getItemThrows := getItemThrows b;
                  setItemThrows := setItemThrows b;
                  uuids := uuids b; uuidCalls := S (uuidCalls b) |}).
    assert (loadOrCreateInstanceId b = (uuids b (uuidCalls b), b2)) as Hl.
    { unfold loadOrCreateInstanceId. rewrite Hs.
      unfold b2, generateUUID, setItem. simpl. by rewrite !Hset. }
    rewrite !Hl. simpl.
    assert (storedId b2 = Some (uuids b (uuidCalls b))) as Hs2.
    { apply storedId_Some. simpl. split_and!; [done|done|].
      exists (uuids b (uuidCalls b)). by rewrite lookup_insert_eq. }
    split_and!.
    + unfold loadOrCreateInstanceId. by rewrite Hs2.
    + done.
    + rewrite lookup_insert_eq. simpl. by rewrite Htrim.
    + intros raw Hraw Hr. by specialize (Hreuse raw Hraw Hr).
Qed.

(** X18. Without a usable stored id the function falls back on a new one
    and never fails: when reading the storage throws, when the key is
    missing, and when the stored text is blank, it returns what the
    generator gives; it stores that under the key when writing is allowed
    and leaves the storage alone when writing throws; the other keys are
    never touched.  With a storage that is blocked both ways, each call
    returns the next id of the generator. *)
Theorem instance_id_falls_back b :
  getItemThrows b = true ∨ items b !! STORAGE_KEY = None ∨
    (∃ raw, items b !! STORAGE_KEY = Some raw ∧ Str.allWhiteSpace raw = true) →
  fst (loadOrCreateInstanceId b) = uuids b (uuidCalls b) ∧
  uuidCalls (snd (loadOrCreateInstanceId b)) = S (uuidCalls b) ∧
  (setItemThrows b = false →
   items (snd (loadOrCreateInstanceId b))
   = <[ STORAGE_KEY := uuids b (uuidCalls b) ]> (items b)) ∧
  (setItemThrows b = true → items (snd (loadOrCreateInstanceId b)) = items b) ∧
  (∀ k, k ≠ STORAGE_KEY →
        items (snd (loadOrCreateInstanceId b)) !! k = items b !! k) ∧
  (getItemThrows b = true → setItemThrows b = true →
   fst (loadOrCreateInstanceId (snd (loadOrCreateInstanceId b)))
   = uuids b (S (uuidCalls b))).
Proof.
  intros Hnone.
  assert (storedId b = None) as Hs.
  { destruct (storedId b) as [stored|] eqn:Hs; [|done].
    apply storedId_Some in Hs as (Hget & Hne & raw & Hraw & ->).
    destruct Hnone as [Hg|[Hk|(raw' & Hraw' & Hws)]]; [congruence|congruence|].
    assert (raw' = raw) as -> by congruence.
    unfold Str.trim in Hne. by rewrite trimStart_ws in Hne. }
  unfold loadOrCreateInstanceId at 1 2 3 4 5. rewrite Hs.
  unfold generateUUID, setItem. simpl.
  destruct (setItemThrows b) eqn:Hset; simpl.
  - split_and!; try done.
    intros Hget _. unfold loadOrCreateInstanceId, storedId, getItem. simpl.
    rewrite Hget. simpl. by rewrite Hset.
  - split_and!; try done.
    intros k Hk. by rewrite lookup_insert_ne.
Qed.

Lemma instance_id_is_stable_witness :
  loadOrCreateInstanceId (snd (loadOrCreateInstanceId (demo ∅)))
  = (fst (loadOrCreateInstanceId (demo ∅)), snd (loadOrCreateInstanceId (demo ∅))).
Proof.
  apply (instance_id_is_stable (demo ∅)); try reflexivity. discriminate.
Defined.

Lemma instance_id_falls_back_witness :
  fst (loadOrCreateInstanceId (demo {[ STORAGE_KEY := "   " ]})) = "id-0".
Proof.
  apply (instance_id_falls_back (demo {[ STORAGE_KEY := "   " ]})).
  right; right. exists "   ". split; reflexivity.
Defined.

End InstanceIdFacts.

(** ** The further properties at work in the example deployment *)

Section MoreRuns.
Import Example.

Lemma unconfigured_cycle_does_nothing_witness :
  syncAlfieIntegrationsOnce (parse ∅) stringify isTruthyEnvValue (λ _, false)
    "/home/node/.openclaw" None (fresh 0)
  = (Ok tt, fresh 0).
Proof.
  apply (proj1 (unconfigured_cycle_does_nothing (parse ∅) stringify
                  isTruthyEnvValue (λ _, false) "/home/node/.openclaw" None
                  (fresh 0))).
  right; right; right. reflexivity.
Defined.

Lemma unusable_snapshot_changes_nothing_witness :
  cycle ∅ (deployment (serving "snapshot-no-ok") 0)
  = (Ok tt, deployment (serving "snapshot-no-ok") 0).
Proof.
  apply (unusable_snapshot_changes_nothing (parse ∅) stringify isTruthyEnvValue
           hasBinary "/home/node/.openclaw" None
           (deployment (serving "snapshot-no-ok") 0) None
           (deployment (serving "snapshot-no-ok") 0)).
  - vm_compute. reflexivity.
  - left. reflexivity.
Defined.

Lemma cycle_contains_failures_witness :
  fst (cycle ∅ (fresh 1)) = Ok tt.
Proof.
  apply (proj1 (cycle_contains_failures (parse ∅) stringify isTruthyEnvValue
                  hasBinary "/home/node/.openclaw" None (fresh 1))
           {| status := 200; body := Ok "snapshot-plain" |} "snapshot-plain");
    reflexivity.
Defined.

Lemma cycle_runs_only_imports_witness :
  commandFor stringify "/home/node/.openclaw" "token"
    (account "user@example.com" "T1") ∈ commandsRun (fresh 0) ∨
  (argv (commandFor stringify "/home/node/.openclaw" "token"
           (account "user@example.com" "T1")) = importArgv ∧
   cmdTimeoutMs (commandFor stringify "/home/node/.openclaw" "token"
                   (account "user@example.com" "T1")) = Num 30000 ∧
   cmdEnv (commandFor stringify "/home/node/.openclaw" "token"
             (account "user@example.com" "T1")) !! "GOG_KEYRING_BACKEND"
     = Some "file" ∧
   cmdEnv (commandFor stringify "/home/node/.openclaw" "token"
             (account "user@example.com" "T1")) !! "XDG_CONFIG_HOME"
     = Some (resolveXdgConfigHome "/home/node/.openclaw" (processEnv (fresh 0))) ∧
   cmdEnv (commandFor stringify "/home/node/.openclaw" "token"
             (account "user@example.com" "T1")) !! "GOG_KEYRING_PASSWORD"
     = Some (resolvedKeyring None (fresh 0)) ∧
   resolvedKeyring None (fresh 0) ≠ "").
Proof.
  apply (cycle_runs_only_imports (parse ∅) stringify isTruthyEnvValue hasBinary
           "/home/node/.openclaw" None (fresh 0)).
  vm_compute. apply list_elem_of_here.
Defined.

Lemma steady_cycle_is_a_fixed_point_witness :
  reconcileOf imported plain Demo.steady = (Ok tt, Demo.steady).
Proof.
  apply (steady_cycle_is_a_fixed_point (parse imported) stringify xdg keyring
           plain (normalizedAccounts (google (integrations plain))) Demo.steady).
  - intros a Ha.
    change (a ∈ [normalizeAccount (account "user@example.com" "T1")]) in Ha.
    apply list_elem_of_singleton in Ha as ->. split; [discriminate|reflexivity].
  - reflexivity.
Defined.

Lemma failed_import_is_retried_witness :
  ∃ l,
    commandsRun
      (snd (reconcile (parse ∅) stringify plain [account "user@example.com" "T1"]
              xdg keyring
              (snd (reconcile (parse ∅) stringify plain
                      [account "user@example.com" "T1"] xdg keyring (fresh 1)))))
    = commandsRun
        (snd (reconcile (parse ∅) stringify plain
                [account "user@example.com" "T1"] xdg keyring (fresh 1))) ++ l ∧
    commandFor stringify xdg keyring (account "user@example.com" "T1") ∈ l.
Proof.
  apply (failed_import_is_retried (parse ∅) stringify xdg keyring plain
           [] (account "user@example.com" "T1") [] (fresh 1)).
  - discriminate.
  - apply not_elem_of_nil.
  - discriminate.
  - reflexivity.
  - intros next Hnext. vm_compute in Hnext. injection Hnext as <-.
    vm_compute. reflexivity.
Defined.

End MoreRuns.
